(** * Batched Sobel gradient magnitude on a CUDA device (cudasobel.cpp)

    A shallow embedding of the kernel [applySobelFilters], of the constant
    tables written by [setSobelKernels] and of the host driver
    [sobelFilterCuda], followed by the properties established on them.

    Conventions of the embedding.
    - C integers are values of [Z]; every conversion the C code performs
      ([unsigned int] arithmetic, conversion to [int], to [size_t], to
      [uchar]) is written out as an explicit wrap-around function.
    - A device buffer of [uchar] and the on-chip tile [s_input2] are maps
      from an index to a sample ([Z -> Z]); a store is a functional update.
    - The tile is [extern __shared__] memory: it has no initialiser, so its
      content when a block starts is a parameter ([garbage]).
    - A kernel launch runs the threads of a block in two phases separated by
      [__syncthreads()]: all loads into the tile, then all neighbourhood
      sums and output stores.
    - The accumulation [sum_x += inputPix * c] is performed by the C code in
      [float] and converted back to [int]; all the values involved are
      integers of magnitude below 2^24, which [float] represents exactly
      (see [taps_never_wrap]), so the embedding uses integer
      arithmetic followed by the conversion to [int]. *)

From Stdlib Require Import ZArith List Bool Lia String Permutation.
Import ListNotations.
Local Open Scope Z_scope.

(** ** Machine integers *)

Module MachineInt.

Definition int_bits : Z := 32.

(** Arithmetic in [unsigned int]. *)
Definition wrap_uint (v : Z) : Z := v mod 2 ^ 32.

(** Arithmetic in [size_t] (64 bits on the device). *)
Definition wrap_size_t (v : Z) : Z := v mod 2 ^ 64.

(** Conversion to [int]: the low 32 bits, read as two's complement. *)
Definition to_int (v : Z) : Z := (v + 2 ^ 31) mod 2 ^ 32 - 2 ^ 31.

(** Conversion to a 16-bit signed integer; not a type of the code, used to
    measure how far the accumulators stay from overflow. *)
Definition to_int16 (v : Z) : Z := (v + 2 ^ 15) mod 2 ^ 16 - 2 ^ 15.

(** The cast [(uchar)]. *)
Definition to_uchar (v : Z) : Z := v mod 256.

End MachineInt.
Import MachineInt.

(** ** Device memory *)

Definition buffer : Type := Z -> Z.

Definition upd (m : buffer) (i v : Z) : buffer :=
  fun k => if k =? i then v else m k.

(** The stores of a sequence of threads: thread [t] writes [v t] at [k t]
    when its guard [p t] holds. *)
Definition store_all {T : Type} (p : T -> bool) (k v : T -> Z) (l : list T)
    (m : buffer) : buffer :=
  fold_left (fun m' t => if p t then upd m' (k t) (v t) else m') l m.

Definition is_uchar (v : Z) : Prop := 0 <= v < 256.

Definition uchar_buffer (m : buffer) : Prop := forall i, is_uchar (m i).

(** ** Directional kernel store: [setSobelKernels] *)

Definition sobel_width : Z := 3.

Definition table : Type := list (list Z).

Definition h_sobel_x : table := [[-1; 0; 1]; [-2; 0; 2]; [-1; 0; 1]].
Definition h_sobel_y : table := [[-1; -2; -1]; [0; 0; 0]; [1; 2; 1]].

(** [t[a][b]] for a table in constant memory, for the indices 0, 1 and 2 of
    the table; the kernel reaches no other index for a [kernel_width] up to
    4. Outside the table, where the code reads whatever constant memory
    holds next to it, the value 0 given here stands for nothing. *)
Definition coef (t : table) (a b : Z) : Z :=
  nth (Z.to_nat b) (nth (Z.to_nat a) t []) 0.

(** ** Thread geometry *)

Record dim3 : Type := mkDim3 { dx : Z; dy : Z; dz : Z }.

Record ctx : Type := mkCtx { blockIdx : dim3; blockDim : dim3; threadIdx : dim3 }.

(** The integers [lo, lo+1, ..., hi] visited by [for (k = lo; k <= hi; ++k)]. *)
Definition range (lo hi : Z) : list Z :=
  map (fun k => lo + Z.of_nat k) (seq 0 (Z.to_nat (hi - lo + 1))).

Definition for_loop {A : Type} (lo hi : Z) (body : Z -> A -> A) (init : A) : A :=
  fold_left (fun a k => body k a) (range lo hi) init.

(** ** The kernel [applySobelFilters], one thread *)

Section Thread.

Variable c : ctx.
Variables width height : Z.

(** [const int x = blockIdx.x * blockDim.x + threadIdx.x;] *)
Definition x : Z :=
  to_int (wrap_uint (dx (blockIdx c) * dx (blockDim c) + dx (threadIdx c))).

Definition y : Z :=
  to_int (wrap_uint (dy (blockIdx c) * dy (blockDim c) + dy (threadIdx c))).

(** [(x<width) && (y<height)]: an [int] compared with a [size_t]. *)
Definition valid : bool :=
  (wrap_size_t x <? width) && (wrap_size_t y <? height).

Definition crtShareIndex : Z :=
  to_int (wrap_uint (dz (threadIdx c) * dx (blockDim c) * dy (blockDim c)
                     + dy (threadIdx c) * dx (blockDim c) + dx (threadIdx c))).

Definition crtGlobalIndex : Z :=
  to_int (wrap_size_t (dz (threadIdx c) * width * height + y * width + x)).

(** The index of the final store, computed in [size_t]. *)
Definition outIndex : Z :=
  wrap_size_t (dz (threadIdx c) * width * height + y * width + x).

End Thread.

(** [int crt = t + off; if (crt < 0) crt = 0; else if (crt >= bd) crt = bd - 1;]
    with [t] and [bd] of type [unsigned int]. *)
Definition clamp_tile (t bd off : Z) : Z :=
  let crt := to_int (wrap_uint (t + off)) in
  if crt <? 0 then 0
  else if bd <=? wrap_uint crt then to_int (wrap_uint (bd - 1))
  else crt.

(** The index of the tile read at offsets [i] (rows) and [j] (columns). *)
Definition tileIndex (c : ctx) (i j : Z) : Z :=
  let crtY := clamp_tile (dy (threadIdx c)) (dy (blockDim c)) i in
  let crtX := clamp_tile (dx (threadIdx c)) (dx (blockDim c)) j in
  wrap_uint (dz (threadIdx c) * dx (blockDim c) * dy (blockDim c)
             + crtY * dx (blockDim c) + crtX).

(** [const int r = (kernel_width - 1) / 2;] (C division truncates), for an
    [int kernel_width] above [INT_MIN], so that [kernel_width - 1] is an
    [int]. *)
Definition radius (kernel_width : Z) : Z := Z.quot (kernel_width - 1) 2.

Section Accumulate.

(** The conversion applied to an accumulator after each addition; the code
    has [conv = to_int]. *)
Variable conv : Z -> Z.
(** Constant memory. *)
Variables c_sobel_x c_sobel_y : table.
Variable s_input2 : buffer.
Variable c : ctx.
Variable r : Z.

(** The body of the inner loop, on the pair [(sum_x, sum_y)]; the
    multiplication and the addition, done in [float] by the code, are exact
    as long as the values stay below 2^24 in magnitude. *)
Definition tap (i j : Z) (acc : Z * Z) : Z * Z :=
  let inputPix := s_input2 (tileIndex c i j) in
  (conv (fst acc + inputPix * coef c_sobel_x (r + j) (r + i)),
   conv (snd acc + inputPix * coef c_sobel_y (r + j) (r + i))).

Definition accumulate : Z * Z :=
  for_loop (- r) r (fun i acc => for_loop (- r) r (fun j acc' => tap i j acc') acc) (0, 0).

(** The same taps as one sequence, in the order the loops visit them. *)
Definition taps : list (Z * Z) :=
  flat_map (fun i => map (fun j => (i, j)) (range (- r) r)) (range (- r) r).

Definition accumulate_taps (l : list (Z * Z)) : Z * Z :=
  fold_left (fun acc ij => tap (fst ij) (snd ij) acc) l (0, 0).

End Accumulate.

(** [(uchar) (abs(sum_x) + abs(sum_y))] *)
Definition magnitude (s : Z * Z) : Z :=
  to_uchar (to_int (Z.abs (fst s) + Z.abs (snd s))).

(** The value a valid thread stores. *)
Definition pixel (c_sobel_x c_sobel_y : table) (s_input2 : buffer) (c : ctx)
    (kernel_width : Z) : Z :=
  magnitude (accumulate to_int c_sobel_x c_sobel_y s_input2 c (radius kernel_width)).

(** ** The kernel on a block and on the grid *)

Definition block_threads (bd bi : dim3) : list ctx :=
  flat_map (fun tz =>
    flat_map (fun ty =>
      map (fun tx => mkCtx bi bd (mkDim3 tx ty tz)) (range 0 (dx bd - 1)))
      (range 0 (dy bd - 1)))
    (range 0 (dz bd - 1)).

Definition grid_blocks (gd : dim3) : list dim3 :=
  flat_map (fun bz =>
    flat_map (fun by_ =>
      map (fun bx => mkDim3 bx by_ bz) (range 0 (dx gd - 1)))
      (range 0 (dy gd - 1)))
    (range 0 (dz gd - 1)).

Section Kernel.

(** What each block finds in its shared memory when it starts. *)
Variable garbage : dim3 -> buffer.
Variables c_sobel_x c_sobel_y : table.
Variable d_input : buffer.
Variables width height : Z.
Variable kernel_width : Z.

(** Lines 42-47: the part of a thread before [__syncthreads()]. *)
Definition load_thread (s_input2 : buffer) (c : ctx) : buffer :=
  if valid c width height
  then upd s_input2 (crtShareIndex c) (d_input (crtGlobalIndex c width height))
  else s_input2.

(** Lines 50-72: the part of a thread after [__syncthreads()]. *)
Definition store_thread (s_input2 : buffer) (d_output : buffer) (c : ctx) : buffer :=
  if valid c width height
  then upd d_output (outIndex c width height)
           (pixel c_sobel_x c_sobel_y s_input2 c kernel_width)
  else d_output.

(** The tile of a block when its threads pass the barrier. *)
Definition tile_after_load (bd bi : dim3) : buffer :=
  fold_left load_thread (block_threads bd bi) (garbage bi).

Definition run_block (bd : dim3) (d_output : buffer) (bi : dim3) : buffer :=
  fold_left (store_thread (tile_after_load bd bi)) (block_threads bd bi) d_output.

(** [applySobelFilters<<<gd, bd, ...>>>(d_input, width, height, kernel_width, d_output)] *)
Definition applySobelFilters (gd bd : dim3) (d_output : buffer) : buffer :=
  fold_left (run_block bd) (grid_blocks gd) d_output.

End Kernel.

(** ** What each thread does, as a sequence of memory actions *)

Inductive action : Type :=
| GlobalLoad (i : Z)     (* d_input[i] is read *)
| SharedStore (i : Z)    (* s_input2[i] is written *)
| Barrier                (* __syncthreads() *)
| SharedLoad (i : Z)     (* s_input2[i] is read *)
| GlobalStore (i : Z).   (* d_output[i] is written *)

Definition action_eqb (a b : action) : bool :=
  match a, b with
  | GlobalLoad i, GlobalLoad j => i =? j
  | SharedStore i, SharedStore j => i =? j
  | Barrier, Barrier => true
  | SharedLoad i, SharedLoad j => i =? j
  | GlobalStore i, GlobalStore j => i =? j
  | _, _ => false
  end.

(** The body of the kernel for thread [c], lines 42-73: a thread that fails
    the test of line 42 does nothing; the others load their sample, store
    it in the tile, wait at the barrier, read the tile once per tap and
    store their result. *)
Definition thread_actions (c : ctx) (width height kernel_width : Z) : list action :=
  if valid c width height then
    [GlobalLoad (crtGlobalIndex c width height); SharedStore (crtShareIndex c); Barrier]
    ++ map (fun ij => SharedLoad (tileIndex c (fst ij) (snd ij))) (taps (radius kernel_width))
    ++ [GlobalStore (outIndex c width height)]
  else [].

(** ** The launch configuration chosen by [sobelFilterCuda] *)

(** [ceil((float)n / 16)], for [n] up to 2^24, where the conversion to
    [float] is exact. *)
Definition ceil16 (n : Z) : Z := (n + 15) / 16.

(** [dim3 blockDimHist(16, 16, batch_sz)], for a [batch_sz] that fits the
    [unsigned int] of a [dim3]. *)
Definition blockDimHist (batch_sz : Z) : dim3 := mkDim3 16 16 batch_sz.

Definition gridDimHist (cols rows : Z) : dim3 := mkDim3 (ceil16 cols) (ceil16 rows) 1.

(** The thread of that launch whose pixel is column [col], row [row] of image [b]. *)
Definition thread_of (batch_sz col row b : Z) : ctx :=
  mkCtx (mkDim3 (col / 16) (row / 16) 0) (blockDimHist batch_sz)
        (mkDim3 (col mod 16) (row mod 16) b).

(** The gradient stage as launched on line 129, on a device whose constant
    memory holds [kx] and [ky]. *)
Definition sobel_launch (garbage : dim3 -> buffer) (kx ky : table) (d_input : buffer)
    (cols rows batch_sz kernel_width : Z) (d_output : buffer) : buffer :=
  applySobelFilters garbage kx ky d_input cols rows kernel_width
    (gridDimHist cols rows) (blockDimHist batch_sz) d_output.

(** A buffer read back as the list of its first [n] samples. *)
Definition samples (m : buffer) (n : Z) : list Z := map m (range 0 (n - 1)).

(** A host image given by its rows, as a buffer. *)
Definition of_list (l : list Z) : buffer := fun i => nth (Z.to_nat i) l 0.

(** ** The device as seen from the host *)

Inductive cudaError : Type :=
| cudaSuccess
| cudaErrorMemoryAllocation
| cudaErrorInvalidValue
| cudaErrorLaunchFailure.

(** A device pointer is the handle of a buffer; 0 is the null pointer. *)
Definition pointer : Type := nat.

Inductive event : Type :=
| Acquire (p : pointer) (size : Z)     (* cudaMalloc returned p for size bytes *)
| Release (p : pointer)                (* cudaFree released p *)
| CopyIn (p : pointer)                 (* host to device *)
| CopyOut (p : pointer)                (* device to host *)
| CopyToSymbol                         (* host to constant memory *)
| Dispatch (kernel : string)           (* a kernel launch *)
| Synchronize.

Definition event_eqb (a b : event) : bool :=
  match a, b with
  | Acquire p n, Acquire q m => Nat.eqb p q && (n =? m)
  | Release p, Release q => Nat.eqb p q
  | CopyIn p, CopyIn q => Nat.eqb p q
  | CopyOut p, CopyOut q => Nat.eqb p q
  | CopyToSymbol, CopyToSymbol => true
  | Dispatch k, Dispatch l => String.eqb k l
  | Synchronize, Synchronize => true
  | _, _ => false
  end.

Record device : Type := mkDevice {
  (** the status the device gives to the n-th call of the runtime API *)
  faults : nat -> cudaError;
  (** what a block of the gradient kernel finds in its shared memory *)
  shared : dim3 -> buffer;
  (** the number of API calls issued so far *)
  calls : nat;
  (** the buffers that are allocated, and the next fresh handle *)
  allocated : list pointer;
  next_pointer : pointer;
  (** the content of the buffers *)
  memory : pointer -> buffer;
  (** constant memory: [c_sobel_x] and [c_sobel_y] *)
  c_sobel_x : table;
  c_sobel_y : table;
  (** what happened, oldest first *)
  events : list event
}.

Definition set_buffer (m : pointer -> buffer) (p : pointer) (content : buffer)
  : pointer -> buffer :=
  fun q => if Nat.eqb q p then content else m q.

(** A call of the runtime API: a status, a value and the device after it. *)
Definition api (A : Type) : Type := device -> (cudaError * A) * device.

Definition tick (d : device) (log : list event) : device :=
  mkDevice (faults d) (shared d) (S (calls d)) (allocated d) (next_pointer d)
           (memory d) (c_sobel_x d) (c_sobel_y d) (events d ++ log).

Definition cudaMalloc (size : Z) : api pointer := fun d =>
  match faults d (calls d) with
  | cudaSuccess =>
      let p := next_pointer d in
      ((cudaSuccess, p),
       mkDevice (faults d) (shared d) (S (calls d)) (p :: allocated d) (S p)
                (memory d) (c_sobel_x d) (c_sobel_y d) (events d ++ [Acquire p size]))
  | e => ((e, 0%nat), tick d [])
  end.

Definition cudaFree (p : pointer) : api unit := fun d =>
  match faults d (calls d) with
  | cudaSuccess =>
      ((cudaSuccess, tt),
       mkDevice (faults d) (shared d) (S (calls d)) (remove Nat.eq_dec p (allocated d))
                (next_pointer d) (memory d) (c_sobel_x d) (c_sobel_y d)
                (events d ++ [Release p]))
  | e => ((e, tt), tick d [])
  end.

(** The first [n] bytes of [src] copied over [dst]. *)
Definition copy_bytes (dst src : buffer) (n : Z) : buffer :=
  fun k => if (0 <=? k) && (k <? n) then src k else dst k.

(** [cudaMemcpy(dst, src, n, cudaMemcpyHostToDevice)] *)
Definition cudaMemcpyHostToDevice (dst : pointer) (src : buffer) (n : Z) : api unit :=
  fun d =>
  match faults d (calls d) with
  | cudaSuccess =>
      ((cudaSuccess, tt),
       mkDevice (faults d) (shared d) (S (calls d)) (allocated d) (next_pointer d)
                (set_buffer (memory d) dst (copy_bytes (memory d dst) src n))
                (c_sobel_x d) (c_sobel_y d) (events d ++ [CopyIn dst]))
  | e => ((e, tt), tick d [])
  end.

(** [cudaMemcpy(host, src, n, cudaMemcpyDeviceToHost)]; the value is the
    content of the host buffer after the call. *)
Definition cudaMemcpyDeviceToHost (host : buffer) (src : pointer) (n : Z) : api buffer :=
  fun d =>
  match faults d (calls d) with
  | cudaSuccess => ((cudaSuccess, copy_bytes host (memory d src) n), tick d [CopyOut src])
  | e => ((e, host), tick d [])
  end.

Definition cudaMemcpyToSymbol (store : table -> device -> device) (t : table)
  : api unit := fun d =>
  match faults d (calls d) with
  | cudaSuccess => ((cudaSuccess, tt), store t (tick d [CopyToSymbol]))
  | e => ((e, tt), tick d [])
  end.

Definition cudaDeviceSynchronize : api unit := fun d =>
  ((faults d (calls d), tt), tick d [Synchronize]).

Definition store_c_sobel_x (t : table) (d : device) : device :=
  mkDevice (faults d) (shared d) (calls d) (allocated d) (next_pointer d)
           (memory d) t (c_sobel_y d) (events d).

Definition store_c_sobel_y (t : table) (d : device) : device :=
  mkDevice (faults d) (shared d) (calls d) (allocated d) (next_pointer d)
           (memory d) (c_sobel_x d) t (events d).

(** ** The host code: results, errors and [SAFE_CALL] *)

Inductive result (A : Type) : Type :=
| Ok (a : A)
| Failed (msg : string).
Arguments Ok {A} a.
Arguments Failed {A} msg.

Definition M (A : Type) : Type := device -> result A * device.

Definition ret {A : Type} (a : A) : M A := fun d => (Ok a, d).

Definition bind {A B : Type} (m : M A) (k : A -> M B) : M B := fun d =>
  match m d with
  | (Ok a, d') => k a d'
  | (Failed msg, d') => (Failed msg, d')
  end.

Declare Scope host_scope.
Delimit Scope host_scope with host.
Notation "x <- m ;; k" := (bind m (fun x => k))
  (at level 61, m at next level, right associativity) : host_scope.
Notation "m ;; k" := (bind m (fun _ => k))
  (at level 61, right associativity) : host_scope.

(** The buffers still allocated are released, the last acquired first. *)
Definition release_all (d : device) : device :=
  mkDevice (faults d) (shared d) (calls d) [] (next_pointer d) (memory d)
           (c_sobel_x d) (c_sobel_y d) (events d ++ map Release (allocated d)).

(** Modelled from the spec: the macro [SAFE_CALL] is used by the source file
    and defined outside it. Every error is fatal to the current run, and all
    the resources the run has acquired and not yet released are released
    before the error surfaces to the caller: when the call does not return
    [cudaSuccess], the buffers still allocated are released, the run ends
    there with the message of the call site, and no statement after it is
    executed. A run starts on a device on which nothing is allocated, so
    the buffers allocated are those of the run. *)
Definition SAFE_CALL {A : Type} (call : api A) (msg : string) : M A := fun d =>
  match call d with
  | ((cudaSuccess, a), d') => (Ok a, d')
  | ((_, _), d') => (Failed msg, release_all d')
  end.

(** A kernel launch [kernel<<<...>>>(...)]: the statement itself reports
    nothing; [effect] is what the kernel does to the buffers. *)
Definition launch (kernel : string) (effect : device -> pointer -> buffer) : M unit :=
  fun d =>
    (Ok tt,
     mkDevice (faults d) (shared d) (calls d) (allocated d) (next_pointer d)
              (effect d) (c_sobel_x d) (c_sobel_y d) (events d ++ [Dispatch kernel])).

(** [setSobelKernels], lines 18-25. *)
Definition setSobelKernels : M unit :=
  (SAFE_CALL (cudaMemcpyToSymbol store_c_sobel_x h_sobel_x)
     "CUDA Kernel Memcpy Host To Device Failed" ;;
   SAFE_CALL (cudaMemcpyToSymbol store_c_sobel_y h_sobel_y)
     "CUDA Kernel Memcpy Host To Device Failed")%host.

(** Line 129 with its arguments as parameters:
    [applySobelFilters<<<gd, bd, ...>>>(d_in, width, height, kernel_width, d_out)]. *)
Definition launch_applySobelFilters (gd bd : dim3) (d_in : pointer)
    (width height kernel_width : Z) (d_out : pointer) : M unit :=
  launch "applySobelFilters"
    (fun d => set_buffer (memory d) d_out
                (applySobelFilters (shared d) (c_sobel_x d) (c_sobel_y d)
                   (memory d d_in) width height kernel_width gd bd
                   (memory d d_out))).

Record Mat : Type := mkMat { mat_cols : Z; mat_rows : Z; mat_data : buffer }.

Section Pipeline.

(** [computeGaussianKernelCuda], called on line 107, is defined outside the
    source file: it is a step of the host that may call the runtime API and
    may fail. *)
Variable computeGaussianKernelCuda : M unit.

(** The blur and grayscale kernels are defined outside the source file:
    each is a function from the content of its input buffer and the image
    dimensions to the content of its output buffer. *)
Variable applyGaussianFilter : buffer -> Z -> Z -> buffer.
Variable convertToGrayscale : buffer -> Z -> Z -> buffer.

(** [sobelFilterCuda], lines 79-142, with [sizeof(uchar3) = 3] and
    [sizeof(uchar) = 1]. The value is the content of [output.ptr()] after
    the copy of line 134. *)
Definition sobelFilterCuda (input : Mat) (output : buffer)
    (weight height batch_sz : Z) : M buffer :=
  let numElemts := weight * height * batch_sz in
  (d_input <- SAFE_CALL (cudaMalloc (numElemts * 3)) "CUDA Malloc Failed" ;;
   d_inputBlurred <- SAFE_CALL (cudaMalloc (numElemts * 3)) "CUDA Malloc Failed" ;;
   d_inputGrayscale <- SAFE_CALL (cudaMalloc (numElemts * 1)) "CUDA Malloc Failed" ;;
   d_output <- SAFE_CALL (cudaMalloc (numElemts * 1)) "CUDA Malloc Failed" ;;
   SAFE_CALL (cudaMemcpyHostToDevice d_input (mat_data input) (numElemts * 3))
     "CUDA Memcpy Host To Device Failed" ;;
   let bd := blockDimHist batch_sz in
   let gd := gridDimHist (mat_cols input) (mat_rows input) in
   computeGaussianKernelCuda ;;
   launch "applyGaussianFilter"
     (fun d => set_buffer (memory d) d_inputBlurred
                 (applyGaussianFilter (memory d d_input)
                    (mat_cols input) (mat_rows input))) ;;
   SAFE_CALL cudaDeviceSynchronize "Kernel Launch Failed" ;;
   launch "convertToGrayscale"
     (fun d => set_buffer (memory d) d_inputGrayscale
                 (convertToGrayscale (memory d d_inputBlurred)
                    (mat_cols input) (mat_rows input))) ;;
   SAFE_CALL cudaDeviceSynchronize "Kernel Launch Failed" ;;
   setSobelKernels ;;
   launch_applySobelFilters gd bd d_inputGrayscale
     (mat_cols input) (mat_rows input) sobel_width d_output ;;
   SAFE_CALL cudaDeviceSynchronize "Kernel Launch Failed" ;;
   received <- SAFE_CALL (cudaMemcpyDeviceToHost output d_output (numElemts * 1))
     "CUDA Memcpy Host To Device Failed" ;;
   SAFE_CALL (cudaFree d_input) "CUDA Free Failed" ;;
   SAFE_CALL (cudaFree d_inputBlurred) "CUDA Free Failed" ;;
   SAFE_CALL (cudaFree d_inputGrayscale) "CUDA Free Failed" ;;
   SAFE_CALL (cudaFree d_output) "CUDA Free Failed" ;;
   ret received)%host.

End Pipeline.

(** Events that acquire or release a buffer. *)
Definition buffer_event (e : event) : bool :=
  match e with
  | Acquire _ _ | Release _ => true
  | _ => false
  end.


(** A device on which nothing has happened yet. *)
Definition boot (f : nat -> cudaError) (g : dim3 -> buffer) : device :=
  mkDevice f g 0%nat [] 1%nat (fun _ _ => 0) [] [] [].

(** How many times buffer [p] was released, and whether it was acquired. *)
Definition releases (p : pointer) (log : list event) : nat :=
  List.length (filter (event_eqb (Release p)) log).

Definition acquired (p : pointer) (log : list event) : bool :=
  existsb (fun e => match e with Acquire q _ => Nat.eqb q p | _ => false end) log.

Definition dispatches (log : list event) : nat :=
  List.length (filter (fun e => match e with Dispatch _ => true | _ => false end) log).


(** ** Sample images *)

(** A 3x3 image with a vertical step edge; its centre pixel has magnitude 1020. *)
Definition step_edge : buffer := of_list [0; 0; 255; 0; 0; 255; 0; 0; 255].

(** The 3x3 image with one bright pixel at its centre. *)
Definition bright_centre : buffer := of_list [10; 10; 10; 10; 100; 10; 10; 10; 10].

(** A device with two buffers, the first of which holds the bright-centre
    image. *)
Definition loaded : device :=
  mkDevice (fun _ => cudaSuccess) (fun _ _ => 0) 0%nat [2%nat; 1%nat] 3%nat
           (set_buffer (fun _ _ => 0) 1%nat bright_centre) h_sobel_x h_sobel_y [].

(** ** Notions used to state the properties *)

(** The nearest value of [lo..hi] to [v]. *)
Definition clamp (lo hi v : Z) : Z := Z.max lo (Z.min hi v).

(** The accumulation with the indexing of the specification: coefficient
    [r+i][r+j] for the row offset [i] and the column offset [j]. *)
Definition tap_untransposed (conv : Z -> Z) (kx ky : table) (s_input2 : buffer)
    (c : ctx) (r i j : Z) (acc : Z * Z) : Z * Z :=
  let inputPix := s_input2 (tileIndex c i j) in
  (conv (fst acc + inputPix * coef kx (r + i) (r + j)),
   conv (snd acc + inputPix * coef ky (r + i) (r + j))).

Definition accumulate_untransposed (conv : Z -> Z) (kx ky : table) (s_input2 : buffer)
    (c : ctx) (r : Z) : Z * Z :=
  for_loop (- r) r
    (fun i acc => for_loop (- r) r
       (fun j acc' => tap_untransposed conv kx ky s_input2 c r i j acc') acc) (0, 0).

Definition transpose3 (t : table) : table :=
  map (fun b => map (fun a => coef t a b) [0; 1; 2]) [0; 1; 2].

(** A block whose tile is addressable with the [int] and [unsigned int]
    index arithmetic of the kernel. *)
Definition block_ok (bd : dim3) : Prop :=
  0 < dx bd /\ 0 < dy bd /\ 0 < dz bd /\ dx bd * dy bd * dz bd <= 2 ^ 30.

(** [c] is one of the threads of its block. *)
Definition in_block (c : ctx) : Prop :=
  0 <= dx (threadIdx c) < dx (blockDim c) /\
  0 <= dy (threadIdx c) < dy (blockDim c) /\
  0 <= dz (threadIdx c) < dz (blockDim c).

(** All the threads of a launch, block after block. *)
Definition grid_threads (gd bd : dim3) : list ctx :=
  flat_map (block_threads bd) (grid_blocks gd).

(** [c] is one of the threads launched by [sobelFilterCuda] for images of
    [cols] by [rows] samples in a batch of [batch_sz]. *)
Definition in_launch (cols rows batch_sz : Z) (c : ctx) : Prop :=
  blockDim c = blockDimHist batch_sz /\ in_block c /\
  0 <= dx (blockIdx c) < ceil16 cols /\
  0 <= dy (blockIdx c) < ceil16 rows /\
  dz (blockIdx c) = 0.

(** What the tile of block [bi] holds at the barrier in row [cy] and column
    [cx] of the slice of image [b]: the sample of the image when that
    position lies in the image, and otherwise what the block found there. *)
Definition tile_sample (garbage : dim3 -> buffer) (d_input : buffer) (cols rows : Z)
    (bi : dim3) (b cy cx : Z) : Z :=
  let gx := dx bi * 16 + cx in
  let gy := dy bi * 16 + cy in
  if (gx <? cols) && (gy <? rows)
  then d_input (b * cols * rows + gy * cols + gx)
  else garbage bi (b * 256 + cy * 16 + cx).

(** The tile-local clamped 3x3 neighbourhood of the pixel in column [col]
    and row [row] of image [b], at row offset [i] and column offset [j]. *)
Definition neighborhood (garbage : dim3 -> buffer) (d_input : buffer) (cols rows : Z)
    (col row b : Z) (i j : Z) : Z :=
  tile_sample garbage d_input cols rows (mkDim3 (col / 16) (row / 16) 0) b
    (clamp 0 15 (row mod 16 + i)) (clamp 0 15 (col mod 16 + j)).


(** The sum over the 3x3 neighbourhood [N] of [k[1+i][1+j] * N i j], without
    any bound on the accumulator. *)
Definition convolve3 (k : table) (N : Z -> Z -> Z) : Z :=
  fold_left (fun acc ij => acc + N (fst ij) (snd ij) * coef k (1 + fst ij) (1 + snd ij))
    (taps 1) 0.

(** A batch of [batch_sz] images of [cols] by [rows] samples that the index
    arithmetic of the kernel and of the launch can address: the dimensions
    are exact in [float] (for the grid size), and the number of samples and
    the size of the tile fit the [int] indices of the kernel. *)
Definition launch_ok (cols rows batch_sz : Z) : Prop :=
  0 < cols /\ 0 < rows /\ 0 < batch_sz /\
  cols <= 2 ^ 24 /\ rows <= 2 ^ 24 /\
  cols * rows * batch_sz < 2 ^ 31 /\ 256 * batch_sz <= 2 ^ 30.

(** The 3x3 neighbourhood of the pixel of column [col] and row [row], once
    clamped to the tile, lies inside the image: the pixel is not in the last
    column of the image unless that column is also the last of its tile, and
    likewise for the rows. *)
Definition neighbourhood_loaded (cols rows col row : Z) : Prop :=
  (col + 1 < cols \/ col mod 16 = 15) /\ (row + 1 < rows \/ row mod 16 = 15).

(** ** Further notions: sizes and schedules *)

(** Line 82: the number of samples for which the buffers are allocated. *)
Definition numElemts (weight height batch_sz : Z) : Z := weight * height * batch_sz.

(** Line 128: the size of the tile requested for the gradient kernel, with
    [sizeof(uchar) = 1]. *)
Definition blockSharedMemory (batch_sz : Z) : Z :=
  dx (blockDimHist batch_sz) * dy (blockDimHist batch_sz) * dz (blockDimHist batch_sz) * 1.

(** The kernel under a schedule. The device runs the blocks in some order
    [blocks]; in block [bi] the threads perform their part before the
    barrier in the order [before bi] and their part after it in the order
    [after bi]. The shared memory is not cleared between blocks: block [bi]
    starts with [stale bi s], where [s] is the tile left by the block run
    before it ([s0] for the first block); [stale bi s = s] when the blocks
    follow each other on one multiprocessor, and [stale] is anything else
    when the shared memory was used in between. The state is the pair of the
    last tile and of the output buffer. *)
Definition run_block_scheduled (stale : dim3 -> buffer -> buffer) (kx ky : table)
    (d_input : buffer) (width height kernel_width : Z) (before after : dim3 -> list ctx)
    (state : buffer * buffer) (bi : dim3) : buffer * buffer :=
  let tile :=
    fold_left (load_thread d_input width height) (before bi) (stale bi (fst state)) in
  (tile, fold_left (store_thread kx ky width height kernel_width tile) (after bi)
           (snd state)).

Definition applySobelFilters_scheduled (stale : dim3 -> buffer -> buffer) (s0 : buffer)
    (kx ky : table) (d_input : buffer) (width height kernel_width : Z)
    (blocks : list dim3) (before after : dim3 -> list ctx) (d_output : buffer) : buffer :=
  snd (fold_left
         (run_block_scheduled stale kx ky d_input width height kernel_width before after)
         blocks (s0, d_output)).

(** * Properties *)

(** Closed facts about concrete inputs are settled by evaluation. *)
Ltac by_computation := vm_compute; repeat split; congruence.

(** ** Machine integers in range *)

Lemma wrap_uint_small (v : Z) : 0 <= v < 2 ^ 32 -> wrap_uint v = v.
Proof. intros Hv. unfold wrap_uint. now apply Z.mod_small. Qed.

Lemma wrap_size_t_small (v : Z) : 0 <= v < 2 ^ 64 -> wrap_size_t v = v.
Proof. intros Hv. unfold wrap_size_t. now apply Z.mod_small. Qed.

Lemma to_int_small (v : Z) : - 2 ^ 31 <= v < 2 ^ 31 -> to_int v = v.
Proof.
  intros Hv. unfold to_int. rewrite Z.mod_small; lia.
Qed.

Lemma to_int16_small (v : Z) : - 2 ^ 15 <= v < 2 ^ 15 -> to_int16 v = v.
Proof.
  intros Hv. unfold to_int16. rewrite Z.mod_small; lia.
Qed.

(** [int v = (unsigned) u;] for a [u] that may be negative as a mathematical
    sum but is the image of a small signed value. *)
Lemma to_int_wrap_uint (v : Z) : - 2 ^ 31 <= v < 2 ^ 31 -> to_int (wrap_uint v) = v.
Proof.
  intros Hv. unfold to_int, wrap_uint.
  rewrite Zplus_mod_idemp_l. rewrite Z.mod_small; lia.
Qed.

(** ** Loops *)

Lemma range_In (lo hi k : Z) : In k (range lo hi) <-> lo <= k <= hi.
Proof.
  unfold range. rewrite in_map_iff. split.
  - intros [n [<- Hn]]. apply in_seq in Hn. lia.
  - intros Hk. exists (Z.to_nat (k - lo)). split; [lia|].
    apply in_seq. lia.
Qed.

Lemma range_empty (lo hi : Z) : hi < lo -> range lo hi = [].
Proof.
  intros H. unfold range. replace (Z.to_nat (hi - lo + 1)) with 0%nat by lia.
  reflexivity.
Qed.

Lemma fold_left_flat_map {A B C : Type} (f : A -> C -> A) (g : B -> list C)
    (l : list B) (a : A) :
  fold_left f (flat_map g l) a = fold_left (fun a' b => fold_left f (g b) a') l a.
Proof.
  revert a. induction l as [|b l IH]; intros a; simpl; [reflexivity|].
  now rewrite fold_left_app, IH.
Qed.

Lemma fold_left_map {A B C : Type} (f : A -> C -> A) (h : B -> C) (l : list B) (a : A) :
  fold_left f (map h l) a = fold_left (fun a' b => f a' (h b)) l a.
Proof.
  revert a. induction l as [|b l IH]; intros a; simpl; [reflexivity|]. apply IH.
Qed.

Lemma fold_left_ext_in {A B : Type} (f g : A -> B -> A) (l : list B) (a : A) :
  (forall a' b, In b l -> f a' b = g a' b) ->
  fold_left f l a = fold_left g l a.
Proof.
  revert a. induction l as [|b l IH]; intros a H; simpl; [reflexivity|].
  rewrite H by (now left). apply IH. intros; apply H; now right.
Qed.

(** A relation between two accumulators that every step preserves holds at
    the end of two loops over the same sequence. *)
Lemma fold_left_rel {A B C : Type} (R : A -> B -> Prop) (f : A -> C -> A)
    (g : B -> C -> B) (l : list C) :
  (forall a b e, In e l -> R a b -> R (f a e) (g b e)) ->
  forall a b, R a b -> R (fold_left f l a) (fold_left g l b).
Proof.
  induction l as [|e l IH]; intros H a b Hab; simpl; [assumption|].
  apply IH.
  - intros; apply H; [now right|assumption].
  - apply H; [now left|assumption].
Qed.

(** The nested loops of the kernel visit [taps r] in order. *)
Lemma accumulate_flat (conv : Z -> Z) (kx ky : table) (s : buffer) (c : ctx) (r : Z) :
  accumulate conv kx ky s c r = accumulate_taps conv kx ky s c r (taps r).
Proof.
  unfold accumulate, accumulate_taps, taps, for_loop.
  rewrite fold_left_flat_map. apply fold_left_ext_in. intros a i _.
  now rewrite fold_left_map.
Qed.

Lemma taps_In (r i j : Z) : In (i, j) (taps r) <-> - r <= i <= r /\ - r <= j <= r.
Proof.
  unfold taps. rewrite in_flat_map. split.
  - intros [i' [Hi Hj]]. apply in_map_iff in Hj. destruct Hj as [j' [E Hj]].
    inversion E; subst. apply range_In in Hi, Hj. lia.
  - intros [Hi Hj]. exists i. split; [now apply range_In|].
    apply in_map_iff. exists j. split; [reflexivity|now apply range_In].
Qed.

(** ** Stores of a sequence of threads *)

Section Stores.

Context {T : Type}.
Variable p : T -> bool.
Variables k v : T -> Z.

Lemma store_all_keep (l : list T) (m : buffer) (a w : Z) :
  m a = w ->
  (forall t, In t l -> p t = true -> k t = a -> v t = w) ->
  store_all p k v l m a = w.
Proof.
  unfold store_all. revert m. induction l as [|t l IH]; intros m Hm H; simpl.
  - exact Hm.
  - apply IH.
    + destruct (p t) eqn:Hp; [|exact Hm].
      unfold upd. destruct (a =? k t) eqn:E; [|exact Hm].
      apply Z.eqb_eq in E. apply H; [now left|assumption|now symmetry].
    + intros t' Hin. apply H. now right.
Qed.

Lemma store_all_miss (l : list T) (m : buffer) (a : Z) :
  (forall t, In t l -> p t = true -> k t <> a) ->
  store_all p k v l m a = m a.
Proof.
  intros H. apply store_all_keep; [reflexivity|].
  intros t Hin Hp Hk. exfalso. exact (H t Hin Hp Hk).
Qed.

Lemma store_all_hit (l : list T) (m : buffer) (t : T) :
  In t l -> p t = true ->
  (forall t', In t' l -> p t' = true -> k t' = k t -> v t' = v t) ->
  store_all p k v l m (k t) = v t.
Proof.
  unfold store_all. revert m. induction l as [|t0 l IH]; intros m Hin Hp H.
  - destruct Hin.
  - simpl. destruct Hin as [-> | Hin].
    + rewrite Hp. apply store_all_keep.
      * unfold upd. now rewrite Z.eqb_refl.
      * intros t' Hin'. apply H. now right.
    + apply IH; [assumption|assumption|].
      intros t' Hin'. apply H. now right.
Qed.

End Stores.

(** ** Indices inside a block *)

Lemma flat3_bound (a b n m l : Z) :
  0 <= a < n -> 0 <= b < m -> 0 <= l ->
  0 <= l * n * m + b * n + a < n * m * (l + 1).
Proof.
  intros Ha Hb Hl.
  assert (0 <= b * n <= (m - 1) * n) by nia.
  assert (0 <= l * (n * m)) by nia.
  lia.
Qed.

Lemma block_ok_dims (bd : dim3) :
  block_ok bd -> dx bd <= 2 ^ 30 /\ dy bd <= 2 ^ 30 /\ dz bd <= 2 ^ 30.
Proof. unfold block_ok. intros (Hx & Hy & Hz & H). nia. Qed.

Lemma clamp_tile_spec (t bd off : Z) :
  0 <= t < bd -> bd <= 2 ^ 30 -> - 2 ^ 30 <= off <= 2 ^ 30 ->
  clamp_tile t bd off = clamp 0 (bd - 1) (t + off).
Proof.
  intros Ht Hbd Hoff. unfold clamp_tile, clamp.
  rewrite to_int_wrap_uint by lia.
  destruct (Z.ltb_spec (t + off) 0) as [Hneg|Hpos]; [lia|].
  rewrite (wrap_uint_small (t + off)) by lia.
  destruct (Z.leb_spec bd (t + off)) as [Hhi|Hin].
  - rewrite to_int_wrap_uint by lia. lia.
  - lia.
Qed.

Lemma clamp_range (lo hi v : Z) : lo <= hi -> lo <= clamp lo hi v <= hi.
Proof. unfold clamp. lia. Qed.

Lemma tileIndex_spec (c : ctx) (i j : Z) :
  block_ok (blockDim c) -> in_block c ->
  - 2 ^ 30 <= i <= 2 ^ 30 -> - 2 ^ 30 <= j <= 2 ^ 30 ->
  tileIndex c i j =
    dz (threadIdx c) * dx (blockDim c) * dy (blockDim c)
    + clamp 0 (dy (blockDim c) - 1) (dy (threadIdx c) + i) * dx (blockDim c)
    + clamp 0 (dx (blockDim c) - 1) (dx (threadIdx c) + j).
Proof.
  intros Hok (Hx & Hy & Hz) Hi Hj. unfold tileIndex.
  pose proof (block_ok_dims _ Hok) as (Dx & Dy & Dz).
  destruct Hok as (Px & Py & Pz & Hsz).
  rewrite !clamp_tile_spec by lia.
  pose proof (clamp_range 0 (dy (blockDim c) - 1) (dy (threadIdx c) + i)) as Cy.
  pose proof (clamp_range 0 (dx (blockDim c) - 1) (dx (threadIdx c) + j)) as Cx.
  apply wrap_uint_small.
  pose proof (flat3_bound (clamp 0 (dx (blockDim c) - 1) (dx (threadIdx c) + j))
                (clamp 0 (dy (blockDim c) - 1) (dy (threadIdx c) + i))
                (dx (blockDim c)) (dy (blockDim c)) (dz (threadIdx c))) as B.
  assert (dx (blockDim c) * dy (blockDim c) * (dz (threadIdx c) + 1)
          <= dx (blockDim c) * dy (blockDim c) * dz (blockDim c)) by nia.
  lia.
Qed.

(** C2. For a thread of a block and offsets [i], [j] in [-r, r], the row and
    column read from the tile are [threadIdx.y + i] and [threadIdx.x + j]
    clamped to [0 .. blockDim.y - 1] and [0 .. blockDim.x - 1]: an offset
    below the tile reads coordinate 0, an offset beyond it reads the last
    coordinate of the tile. The cell read is a function of the position in
    the tile only: it is the same for every block, hence for every position
    of the tile in the image, and no image dimension enters it. *)
Theorem tile_local_clamping (c : ctx) (r i j : Z) :
  block_ok (blockDim c) -> in_block c ->
  0 <= r <= 2 ^ 30 -> - r <= i <= r -> - r <= j <= r ->
  let crtY := clamp_tile (dy (threadIdx c)) (dy (blockDim c)) i in
  let crtX := clamp_tile (dx (threadIdx c)) (dx (blockDim c)) j in
  (dy (threadIdx c) + i < 0 -> crtY = 0) /\
  (dy (blockDim c) <= dy (threadIdx c) + i -> crtY = dy (blockDim c) - 1) /\
  (0 <= dy (threadIdx c) + i < dy (blockDim c) -> crtY = dy (threadIdx c) + i) /\
  (dx (threadIdx c) + j < 0 -> crtX = 0) /\
  (dx (blockDim c) <= dx (threadIdx c) + j -> crtX = dx (blockDim c) - 1) /\
  (0 <= dx (threadIdx c) + j < dx (blockDim c) -> crtX = dx (threadIdx c) + j) /\
  tileIndex c i j =
    dz (threadIdx c) * dx (blockDim c) * dy (blockDim c) + crtY * dx (blockDim c) + crtX /\
  (forall bi : dim3, tileIndex (mkCtx bi (blockDim c) (threadIdx c)) i j = tileIndex c i j).
Proof.
  intros Hok Hin Hr Hi Hj crtY crtX.
  pose proof (block_ok_dims _ Hok) as (Dx & Dy & Dz).
  pose proof Hin as (Hx & Hy & Hz).
  assert (EY : crtY = clamp 0 (dy (blockDim c) - 1) (dy (threadIdx c) + i))
    by (apply clamp_tile_spec; lia).
  assert (EX : crtX = clamp 0 (dx (blockDim c) - 1) (dx (threadIdx c) + j))
    by (apply clamp_tile_spec; lia).
  repeat split; try (rewrite ?EY, ?EX; unfold clamp; lia).
  - rewrite EY, EX. apply tileIndex_spec; [assumption|assumption|lia|lia].
Qed.

Lemma tile_local_clamping_witness :
  clamp_tile 0 16 (-1) = 0 /\ clamp_tile 15 16 1 = 15 /\
  tileIndex (thread_of 1 15 0 0) (-1) 1 = 15.
Proof.
  pose proof (tile_local_clamping (thread_of 1 15 0 0) 1 (-1) 1) as H.
  cbv zeta in H.
  destruct H as (Y0 & _ & _ & _ & X1 & _ & T & _).
  - by_computation.
  - by_computation.
  - lia.
  - lia.
  - lia.
  - split; [apply Y0; by_computation|].
    split; [apply X1; by_computation|].
    rewrite T. reflexivity.
Defined.

(** ** The accumulators *)

Lemma radius_sobel_width : radius sobel_width = 1.
Proof. reflexivity. Qed.

Lemma coef_h_sobel_x_bound (a b : Z) : - 2 <= coef h_sobel_x a b <= 2.
Proof.
  unfold coef.
  destruct (Z.to_nat a) as [|[|[|[|n]]]]; destruct (Z.to_nat b) as [|[|[|[|m]]]];
    simpl; lia.
Qed.

Lemma coef_h_sobel_y_bound (a b : Z) : - 2 <= coef h_sobel_y a b <= 2.
Proof.
  unfold coef.
  destruct (Z.to_nat a) as [|[|[|[|n]]]]; destruct (Z.to_nat b) as [|[|[|[|m]]]];
    simpl; lia.
Qed.

Lemma term_bound (p k : Z) : is_uchar p -> - 2 <= k <= 2 -> Z.abs (p * k) <= 510.
Proof. unfold is_uchar. intros Hp Hk. nia. Qed.

(** Starting from accumulators of magnitude at most [B], a sequence of taps
    short enough for [B + 510 * List.length] to fit 16 signed bits never wraps:
    the 32-bit accumulators of the code, 16-bit ones and unbounded ones hold
    the same values after it. *)
Lemma taps_never_wrap (s : buffer) (c : ctx) (r : Z) (l : list (Z * Z)) :
  uchar_buffer s ->
  forall (B : Z) (a : Z * Z),
    Z.abs (fst a) <= B -> Z.abs (snd a) <= B ->
    B + 510 * Z.of_nat (List.length l) <= 32767 ->
    let step conv := fun acc ij =>
      tap conv h_sobel_x h_sobel_y s c r (fst ij) (snd ij) acc in
    let e := fold_left (step (fun v => v)) l a in
    fold_left (step to_int) l a = e /\
    fold_left (step to_int16) l a = e /\
    Z.abs (fst e) <= B + 510 * Z.of_nat (List.length l) /\
    Z.abs (snd e) <= B + 510 * Z.of_nat (List.length l).
Proof.
  intros Hs. induction l as [|[i j] l IH]; intros B a Ha1 Ha2 HB; cbv zeta.
  - simpl. repeat split; lia.
  - cbn [List.length] in HB. rewrite Nat2Z.inj_succ in HB.
    pose proof (term_bound _ _ (Hs (tileIndex c i j))
                  (coef_h_sobel_x_bound (r + j) (r + i))) as Tx.
    pose proof (term_bound _ _ (Hs (tileIndex c i j))
                  (coef_h_sobel_y_bound (r + j) (r + i))) as Ty.
    cbn [fold_left fst snd].
    assert (H32 : tap to_int h_sobel_x h_sobel_y s c r i j a =
                  tap (fun v => v) h_sobel_x h_sobel_y s c r i j a).
    { unfold tap. cbv zeta. rewrite !to_int_small by lia. reflexivity. }
    assert (H16 : tap to_int16 h_sobel_x h_sobel_y s c r i j a =
                  tap (fun v => v) h_sobel_x h_sobel_y s c r i j a).
    { unfold tap. cbv zeta. rewrite !to_int16_small by lia. reflexivity. }
    rewrite H32, H16.
    specialize (IH (B + 510) (tap (fun v => v) h_sobel_x h_sobel_y s c r i j a)).
    cbv zeta in IH.
    destruct IH as (E32 & E16 & B1 & B2);
      [unfold tap; cbn [fst snd]; lia|unfold tap; cbn [fst snd]; lia|lia|].
    cbn [List.length]. rewrite Nat2Z.inj_succ.
    repeat split; [exact E32|exact E16|lia|lia].
Qed.

(** C8. The accumulators [sum_x] and [sum_y] are of type [int], a signed
    type of 32 bits, hence of at least 16. For a tile of 8-bit samples and
    the 3x3 kernels, after any number [n] of the 9 taps the accumulators of
    the code hold exactly the unbounded sums, no conversion to [int] having
    wrapped; the same is true of 16-bit signed accumulators, and the sums
    have magnitude at most 9 * 255 * 2. *)
Theorem accumulate_within_int16 (s : buffer) (c : ctx) (n : nat) :
  uchar_buffer s ->
  let r := radius sobel_width in
  let partial conv :=
    accumulate_taps conv h_sobel_x h_sobel_y s c r (firstn n (taps r)) in
  16 <= int_bits /\
  partial to_int = partial (fun v => v) /\
  partial to_int16 = partial (fun v => v) /\
  Z.abs (fst (partial (fun v => v))) <= 9 * (255 * 2) /\
  Z.abs (snd (partial (fun v => v))) <= 9 * (255 * 2) /\
  accumulate to_int h_sobel_x h_sobel_y s c r =
    accumulate_taps (fun v => v) h_sobel_x h_sobel_y s c r (taps r).
Proof.
  intros Hs r partial. subst partial. cbv beta.
  assert (Hlen : forall m, (List.length (firstn m (taps r)) <= 9)%nat).
  { intros m. rewrite length_firstn. change (List.length (taps r)) with 9%nat. lia. }
  pose proof (taps_never_wrap s c r (firstn n (taps r)) Hs 0 (0, 0)) as P.
  cbv zeta in P. cbn [fst snd] in P.
  destruct P as (E32 & E16 & B1 & B2); [lia|lia|specialize (Hlen n); lia|].
  pose proof (taps_never_wrap s c r (taps r) Hs 0 (0, 0)) as Q.
  cbv zeta in Q. cbn [fst snd] in Q.
  destruct Q as (F32 & _); [lia|lia|change (List.length (taps r)) with 9%nat; lia|].
  specialize (Hlen n).
  split; [unfold int_bits; lia|].
  split; [exact E32|]. split; [exact E16|].
  split; [unfold accumulate_taps; lia|]. split; [unfold accumulate_taps; lia|].
  rewrite accumulate_flat. exact F32.
Qed.

Lemma accumulate_within_int16_witness :
  accumulate to_int h_sobel_x h_sobel_y (fun _ => 255) (thread_of 1 1 1 0)
    (radius sobel_width) = (0, 0).
Proof.
  pose proof (accumulate_within_int16 (fun _ => 255) (thread_of 1 1 1 0) 9) as H.
  cbv zeta in H.
  destruct H as (_ & _ & _ & _ & _ & E).
  - intros i. unfold is_uchar. lia.
  - rewrite E. reflexivity.
Defined.

(** ** Orientation of the kernels *)

Lemma h_sobel_transposed (a b : Z) :
  0 <= a <= 2 -> 0 <= b <= 2 ->
  coef h_sobel_x a b = coef h_sobel_y b a /\ coef h_sobel_y a b = coef h_sobel_x b a.
Proof.
  intros Ha Hb.
  assert (A : a = 0 \/ a = 1 \/ a = 2) by lia.
  assert (B : b = 0 \/ b = 1 \/ b = 2) by lia.
  destruct A as [-> | [-> | ->]]; destruct B as [-> | [-> | ->]]; split; reflexivity.
Qed.

(** The two accumulators of the code are those of the untransposed
    indexing, exchanged. *)
Lemma accumulate_swapped (conv : Z -> Z) (s : buffer) (c : ctx) :
  let code := accumulate conv h_sobel_x h_sobel_y s c 1 in
  let spec := accumulate_untransposed conv h_sobel_x h_sobel_y s c 1 in
  fst code = snd spec /\ snd code = fst spec.
Proof.
  cbv zeta. unfold accumulate, accumulate_untransposed, for_loop.
  apply (fold_left_rel (fun a b : Z * Z => fst a = snd b /\ snd a = fst b));
    [|split; reflexivity].
  intros a b i Hi Hab.
  apply (fold_left_rel (fun a b : Z * Z => fst a = snd b /\ snd a = fst b));
    [|exact Hab].
  intros a' b' j Hj [H1 H2]. apply range_In in Hi, Hj.
  unfold tap, tap_untransposed. cbn [fst snd].
  destruct (h_sobel_transposed (1 + j) (1 + i)) as [Ex Ey]; [lia|lia|].
  rewrite Ex, Ey, H1, H2. split; reflexivity.
Qed.

(** C9. The code reads coefficient [r+j][r+i] for the row offset [i] and the
    column offset [j]. The stored y kernel is the transpose of the stored x
    kernel, so the code's [sum_x] is the [sum_y] of the untransposed
    indexing and its [sum_y] is the untransposed [sum_x]; the value stored,
    computed from [|sum_x| + |sum_y|], is the same for both indexings, for
    every tile content and every thread. *)
Theorem transposed_indexing_harmless (s : buffer) (c : ctx) :
  let r := radius sobel_width in
  let code := accumulate to_int h_sobel_x h_sobel_y s c r in
  let spec := accumulate_untransposed to_int h_sobel_x h_sobel_y s c r in
  h_sobel_y = transpose3 h_sobel_x /\
  fst code = snd spec /\ snd code = fst spec /\
  pixel h_sobel_x h_sobel_y s c sobel_width = magnitude spec.
Proof.
  cbv zeta. rewrite radius_sobel_width.
  destruct (accumulate_swapped to_int s c) as [E1 E2].
  split; [reflexivity|]. split; [exact E1|]. split; [exact E2|].
  unfold pixel, magnitude. rewrite radius_sobel_width, E1, E2.
  now rewrite Z.add_comm.
Qed.

(** ** The threads of a launch *)

Lemma block_threads_In (bd bi : dim3) (c : ctx) :
  In c (block_threads bd bi) <-> blockIdx c = bi /\ blockDim c = bd /\ in_block c.
Proof.
  unfold block_threads, in_block. rewrite in_flat_map. split.
  - intros (tz & Hz & H). apply in_flat_map in H. destruct H as (ty & Hy & H).
    apply in_map_iff in H. destruct H as (tx & <- & Hx).
    apply range_In in Hx, Hy, Hz. cbn. repeat split; lia.
  - destruct c as [bi' bd' [tx ty tz]]. cbn. intros (-> & -> & Hx & Hy & Hz).
    exists tz. split; [apply range_In; lia|].
    apply in_flat_map. exists ty. split; [apply range_In; lia|].
    apply in_map_iff. exists tx. split; [reflexivity|apply range_In; lia].
Qed.

Lemma grid_blocks_In (gd bi : dim3) :
  In bi (grid_blocks gd) <->
  0 <= dx bi < dx gd /\ 0 <= dy bi < dy gd /\ 0 <= dz bi < dz gd.
Proof.
  unfold grid_blocks. rewrite in_flat_map. split.
  - intros (bz & Hz & H). apply in_flat_map in H. destruct H as (by_ & Hy & H).
    apply in_map_iff in H. destruct H as (bx & <- & Hx).
    apply range_In in Hx, Hy, Hz. cbn. repeat split; lia.
  - destruct bi as [bx by_ bz]. cbn. intros (Hx & Hy & Hz).
    exists bz. split; [apply range_In; lia|].
    apply in_flat_map. exists by_. split; [apply range_In; lia|].
    apply in_map_iff. exists bx. split; [reflexivity|apply range_In; lia].
Qed.

Lemma grid_threads_In (cols rows batch_sz : Z) (c : ctx) :
  In c (grid_threads (gridDimHist cols rows) (blockDimHist batch_sz)) <->
  in_launch cols rows batch_sz c.
Proof.
  unfold grid_threads, in_launch. rewrite in_flat_map. split.
  - intros (bi & Hbi & Hc). apply grid_blocks_In in Hbi.
    apply block_threads_In in Hc. destruct Hc as (<- & Hbd & Hin).
    unfold gridDimHist in Hbi. cbn [dx dy dz] in Hbi.
    split; [assumption|]. split; [assumption|]. lia.
  - intros (Hbd & Hin & Hx & Hy & Hz). exists (blockIdx c). split.
    + apply grid_blocks_In. unfold gridDimHist. cbn [dx dy dz]. lia.
    + apply block_threads_In. tauto.
Qed.

Lemma ceil16_bound (n b : Z) : 0 <= b < ceil16 n -> 16 * b + 15 <= n + 14.
Proof.
  unfold ceil16. intros Hb.
  pose proof (Z.div_mod (n + 15) 16 ltac:(lia)) as E.
  pose proof (Z.mod_pos_bound (n + 15) 16 ltac:(lia)) as M. lia.
Qed.

Section Launch.

Variables cols rows batch_sz : Z.
Hypothesis Hok : launch_ok cols rows batch_sz.
Variable c : ctx.
Hypothesis Hc : in_launch cols rows batch_sz c.

Lemma launch_x : x c = dx (blockIdx c) * 16 + dx (threadIdx c).
Proof.
  destruct Hok as (W0 & H0 & B0 & Wb & Hb & Sz & Bz).
  destruct Hc as (Ebd & (Tx & Ty & Tz) & Bx & By & Bzz).
  rewrite Ebd in *. cbn in Tx, Ty, Tz.
  pose proof (ceil16_bound _ _ Bx). unfold x. rewrite Ebd. cbn.
  apply to_int_wrap_uint. lia.
Qed.

Lemma launch_y : y c = dy (blockIdx c) * 16 + dy (threadIdx c).
Proof.
  destruct Hok as (W0 & H0 & B0 & Wb & Hb & Sz & Bz).
  destruct Hc as (Ebd & (Tx & Ty & Tz) & Bx & By & Bzz).
  rewrite Ebd in *. cbn in Tx, Ty, Tz.
  pose proof (ceil16_bound _ _ By). unfold y. rewrite Ebd. cbn.
  apply to_int_wrap_uint. lia.
Qed.

Lemma launch_valid :
  valid c cols rows =
    (dx (blockIdx c) * 16 + dx (threadIdx c) <? cols)
    && (dy (blockIdx c) * 16 + dy (threadIdx c) <? rows).
Proof.
  unfold valid. rewrite launch_x, launch_y.
  destruct Hok as (W0 & H0 & B0 & Wb & Hb & Sz & Bz).
  destruct Hc as (Ebd & (Tx & Ty & Tz) & Bx & By & Bzz).
  rewrite Ebd in *. cbn in Tx, Ty, Tz.
  pose proof (ceil16_bound _ _ Bx). pose proof (ceil16_bound _ _ By).
  rewrite !wrap_size_t_small by lia. reflexivity.
Qed.

Lemma launch_crtShareIndex :
  crtShareIndex c =
    dz (threadIdx c) * 256 + dy (threadIdx c) * 16 + dx (threadIdx c).
Proof.
  destruct Hok as (W0 & H0 & B0 & Wb & Hb & Sz & Bz).
  destruct Hc as (Ebd & (Tx & Ty & Tz) & Bx & By & Bzz).
  unfold crtShareIndex. rewrite Ebd in *. cbn in Tx, Ty, Tz.
  unfold blockDimHist. cbn [dx dy dz].
  rewrite to_int_wrap_uint by lia. lia.
Qed.

Lemma launch_flat_bound :
  valid c cols rows = true ->
  0 <= dz (threadIdx c) * cols * rows + y c * cols + x c < cols * rows * batch_sz.
Proof.
  rewrite launch_valid, launch_x, launch_y. intros Hv.
  apply andb_true_iff in Hv. destruct Hv as [Vx Vy].
  apply Z.ltb_lt in Vx, Vy.
  destruct Hok as (W0 & H0 & B0 & Wb & Hb & Sz & Bz).
  destruct Hc as (Ebd & (Tx & Ty & Tz) & Bx & By & Bzz).
  rewrite Ebd in *. cbn in Tx, Ty, Tz.
  pose proof (flat3_bound (dx (blockIdx c) * 16 + dx (threadIdx c))
                (dy (blockIdx c) * 16 + dy (threadIdx c))
                cols rows (dz (threadIdx c))) as F.
  assert (cols * rows * (dz (threadIdx c) + 1) <= cols * rows * batch_sz) by nia.
  lia.
Qed.

Lemma launch_outIndex :
  valid c cols rows = true ->
  outIndex c cols rows = dz (threadIdx c) * cols * rows + y c * cols + x c.
Proof.
  intros Hv. pose proof (launch_flat_bound Hv) as F.
  destruct Hok as (W0 & H0 & B0 & Wb & Hb & Sz & Bz).
  unfold outIndex. apply wrap_size_t_small. lia.
Qed.

Lemma launch_crtGlobalIndex :
  valid c cols rows = true ->
  crtGlobalIndex c cols rows = dz (threadIdx c) * cols * rows + y c * cols + x c.
Proof.
  intros Hv. pose proof (launch_flat_bound Hv) as F.
  destruct Hok as (W0 & H0 & B0 & Wb & Hb & Sz & Bz).
  unfold crtGlobalIndex. rewrite wrap_size_t_small by lia.
  apply to_int_small. lia.
Qed.

End Launch.

(** ** Distinct threads use distinct cells *)

Lemma flat3_inj (n m a b l a' b' l' : Z) :
  0 <= a < n -> 0 <= b < m -> 0 <= a' < n -> 0 <= b' < m ->
  l * n * m + b * n + a = l' * n * m + b' * n + a' ->
  l = l' /\ b = b' /\ a = a'.
Proof.
  intros Ha Hb Ha' Hb' E.
  destruct (Z.div_mod_unique n (l * m + b) (l' * m + b') a a') as [E1 E2];
    [lia|lia|lia|].
  destruct (Z.div_mod_unique m l l' b b') as [E3 E4]; [lia|lia|lia|].
  auto.
Qed.

Lemma ctx_eq (c c' : ctx) :
  blockDim c = blockDim c' ->
  dx (blockIdx c) = dx (blockIdx c') -> dy (blockIdx c) = dy (blockIdx c') ->
  dz (blockIdx c) = dz (blockIdx c') ->
  dx (threadIdx c) = dx (threadIdx c') -> dy (threadIdx c) = dy (threadIdx c') ->
  dz (threadIdx c) = dz (threadIdx c') ->
  c = c'.
Proof.
  destruct c as [[bx by_ bz] bd [tx ty tz]], c' as [[bx' by' bz'] bd' [tx' ty' tz']].
  cbn. intros; subst. reflexivity.
Qed.

Section Cells.

Variables cols rows batch_sz : Z.
Hypothesis Hok : launch_ok cols rows batch_sz.
Variables c c' : ctx.
Hypothesis Hc : in_launch cols rows batch_sz c.
Hypothesis Hc' : in_launch cols rows batch_sz c'.

Lemma crtShareIndex_inj :
  blockIdx c = blockIdx c' -> crtShareIndex c = crtShareIndex c' -> c = c'.
Proof.
  intros Hb E.
  rewrite (launch_crtShareIndex _ _ _ Hok c Hc) in E.
  rewrite (launch_crtShareIndex _ _ _ Hok c' Hc') in E.
  destruct Hc as (Ebd & (Tx & Ty & Tz) & _), Hc' as (Ebd' & (Tx' & Ty' & Tz') & _).
  rewrite Ebd in Tx, Ty, Tz. rewrite Ebd' in Tx', Ty', Tz'.
  cbn in Tx, Ty, Tz, Tx', Ty', Tz'.
  apply ctx_eq; try (now rewrite Hb); try lia. congruence.
Qed.

Lemma outIndex_inj :
  valid c cols rows = true -> valid c' cols rows = true ->
  outIndex c cols rows = outIndex c' cols rows -> c = c'.
Proof.
  intros V V' E.
  rewrite (launch_outIndex _ _ _ Hok c Hc V) in E.
  rewrite (launch_outIndex _ _ _ Hok c' Hc' V') in E.
  rewrite (launch_valid _ _ _ Hok c Hc) in V.
  rewrite (launch_valid _ _ _ Hok c' Hc') in V'.
  rewrite (launch_x _ _ _ Hok c Hc), (launch_y _ _ _ Hok c Hc) in E.
  rewrite (launch_x _ _ _ Hok c' Hc'), (launch_y _ _ _ Hok c' Hc') in E.
  apply andb_true_iff in V, V'. destruct V as [Vx Vy], V' as [Vx' Vy'].
  apply Z.ltb_lt in Vx, Vy, Vx', Vy'.
  destruct Hc as (Ebd & (Tx & Ty & Tz) & Bx & By & Bz).
  destruct Hc' as (Ebd' & (Tx' & Ty' & Tz') & Bx' & By' & Bz').
  rewrite Ebd in Tx, Ty, Tz. rewrite Ebd' in Tx', Ty', Tz'.
  cbn in Tx, Ty, Tz, Tx', Ty', Tz'.
  apply flat3_inj in E; [|lia|lia|lia|lia].
  apply ctx_eq; try lia. congruence.
Qed.

End Cells.

(** ** The tile at the barrier and the output after the launch *)

Section Launched.

Variable garbage : dim3 -> buffer.
Variables kx ky : table.
Variable d_input : buffer.
Variables cols rows batch_sz kernel_width : Z.
Hypothesis Hok : launch_ok cols rows batch_sz.

(** The cell of the tile that belongs to thread [c] holds the sample of
    [c] when [c] is valid, and what the block found there otherwise. *)
Lemma tile_at (c : ctx) :
  in_launch cols rows batch_sz c ->
  tile_after_load garbage d_input cols rows (blockDimHist batch_sz) (blockIdx c)
    (crtShareIndex c) =
  if valid c cols rows then d_input (crtGlobalIndex c cols rows)
  else garbage (blockIdx c) (crtShareIndex c).
Proof.
  intros Hc.
  assert (Hin : In c (block_threads (blockDimHist batch_sz) (blockIdx c))).
  { apply block_threads_In. destruct Hc as (Ebd & Hin & _). auto. }
  assert (Hsib : forall t, In t (block_threads (blockDimHist batch_sz) (blockIdx c)) ->
                      in_launch cols rows batch_sz t /\ blockIdx t = blockIdx c).
  { intros t Ht. apply block_threads_In in Ht. destruct Ht as (Eb & Ed & Ht).
    split; [|exact Eb]. destruct Hc as (_ & _ & Bx & By & Bz).
    unfold in_launch. rewrite Eb. auto. }
  change (tile_after_load garbage d_input cols rows (blockDimHist batch_sz) (blockIdx c))
    with (store_all (fun t => valid t cols rows) crtShareIndex
            (fun t => d_input (crtGlobalIndex t cols rows))
            (block_threads (blockDimHist batch_sz) (blockIdx c))
            (garbage (blockIdx c))).
  destruct (valid c cols rows) eqn:V.
  - apply (store_all_hit (fun t => valid t cols rows) crtShareIndex
             (fun t => d_input (crtGlobalIndex t cols rows))); [exact Hin|exact V|].
    intros t Ht _ E. destruct (Hsib t Ht) as [Lt Eb].
    now rewrite (crtShareIndex_inj _ _ _ Hok t c Lt Hc Eb E).
  - apply store_all_miss. intros t Ht Vt E. destruct (Hsib t Ht) as [Lt Eb].
    rewrite (crtShareIndex_inj _ _ _ Hok t c Lt Hc Eb E) in Vt. congruence.
Qed.

Lemma applySobelFilters_store_all (gd bd : dim3) (d_output : buffer) :
  applySobelFilters garbage kx ky d_input cols rows kernel_width gd bd d_output =
  store_all (fun t => valid t cols rows) (fun t => outIndex t cols rows)
    (fun t => pixel kx ky
                (tile_after_load garbage d_input cols rows bd (blockIdx t))
                t kernel_width)
    (grid_threads gd bd) d_output.
Proof.
  unfold applySobelFilters, store_all, grid_threads.
  rewrite fold_left_flat_map. apply fold_left_ext_in. intros out bi _.
  unfold run_block. apply fold_left_ext_in. intros out' t Ht.
  apply block_threads_In in Ht. destruct Ht as (<- & _ & _).
  reflexivity.
Qed.

(** The sample of the output that belongs to a valid thread is the value
    that thread computes from the tile of its block. *)
Lemma sobel_launch_at_thread (d_output : buffer) (c : ctx) :
  in_launch cols rows batch_sz c -> valid c cols rows = true ->
  sobel_launch garbage kx ky d_input cols rows batch_sz kernel_width d_output
    (outIndex c cols rows) =
  pixel kx ky
    (tile_after_load garbage d_input cols rows (blockDimHist batch_sz) (blockIdx c))
    c kernel_width.
Proof.
  intros Hc V. unfold sobel_launch. rewrite applySobelFilters_store_all.
  apply (store_all_hit (fun t => valid t cols rows) (fun t => outIndex t cols rows)
           (fun t => pixel kx ky
                       (tile_after_load garbage d_input cols rows
                          (blockDimHist batch_sz) (blockIdx t)) t kernel_width)).
  - now apply grid_threads_In.
  - exact V.
  - intros t Ht Vt E. apply grid_threads_In in Ht.
    now rewrite (outIndex_inj _ _ _ Hok t c Ht Hc Vt V E).
Qed.

(** A sample that belongs to no valid thread is left as it was. *)
Lemma sobel_launch_elsewhere (d_output : buffer) (k : Z) :
  (forall t, in_launch cols rows batch_sz t -> valid t cols rows = true ->
             outIndex t cols rows <> k) ->
  sobel_launch garbage kx ky d_input cols rows batch_sz kernel_width d_output k =
  d_output k.
Proof.
  intros H. unfold sobel_launch. rewrite applySobelFilters_store_all.
  apply store_all_miss. intros t Ht Vt. apply grid_threads_In in Ht. auto.
Qed.

End Launched.

(** ** The thread of a pixel *)

Section Pixel.

Variables cols rows batch_sz : Z.
Hypothesis Hok : launch_ok cols rows batch_sz.
Variables col row b : Z.
Hypothesis Hcol : 0 <= col < cols.
Hypothesis Hrow : 0 <= row < rows.
Hypothesis Hb : 0 <= b < batch_sz.

Lemma div16_lt_ceil16 (n k : Z) : 0 <= k < n -> 0 <= k / 16 < ceil16 n.
Proof.
  intros Hk. unfold ceil16. split; [apply Z.div_pos; lia|].
  apply Z.div_lt_upper_bound; [lia|].
  pose proof (Z.div_mod (n + 15) 16 ltac:(lia)).
  pose proof (Z.mod_pos_bound (n + 15) 16 ltac:(lia)). lia.
Qed.

Lemma thread_of_in_launch : in_launch cols rows batch_sz (thread_of batch_sz col row b).
Proof.
  unfold in_launch, in_block, thread_of. cbn.
  pose proof (Z.mod_pos_bound col 16 ltac:(lia)).
  pose proof (Z.mod_pos_bound row 16 ltac:(lia)).
  pose proof (div16_lt_ceil16 cols col Hcol).
  pose proof (div16_lt_ceil16 rows row Hrow).
  repeat split; lia.
Qed.

Lemma thread_of_x : x (thread_of batch_sz col row b) = col.
Proof.
  rewrite (launch_x _ _ _ Hok _ thread_of_in_launch). cbn.
  pose proof (Z.div_mod col 16 ltac:(lia)). lia.
Qed.

Lemma thread_of_y : y (thread_of batch_sz col row b) = row.
Proof.
  rewrite (launch_y _ _ _ Hok _ thread_of_in_launch). cbn.
  pose proof (Z.div_mod row 16 ltac:(lia)). lia.
Qed.

Lemma thread_of_valid : valid (thread_of batch_sz col row b) cols rows = true.
Proof.
  unfold valid. rewrite thread_of_x, thread_of_y.
  destruct Hok as (W0 & H0 & B0 & Wb & Hb' & Sz & Bz).
  rewrite !wrap_size_t_small by lia.
  apply andb_true_iff. split; apply Z.ltb_lt; lia.
Qed.

Lemma thread_of_outIndex :
  outIndex (thread_of batch_sz col row b) cols rows = b * cols * rows + row * cols + col.
Proof.
  rewrite (launch_outIndex _ _ _ Hok _ thread_of_in_launch thread_of_valid).
  rewrite thread_of_x, thread_of_y. reflexivity.
Qed.

End Pixel.

(** ** The tile holds 8-bit samples *)

Lemma store_all_uchar {T : Type} (p : T -> bool) (k v : T -> Z) (l : list T) (m : buffer) :
  uchar_buffer m -> (forall t, is_uchar (v t)) -> uchar_buffer (store_all p k v l m).
Proof.
  intros Hm Hv. unfold store_all. revert m Hm.
  induction l as [|t l IH]; intros m Hm; simpl; [exact Hm|].
  apply IH. destruct (p t); [|exact Hm].
  intros i. unfold upd. destruct (i =? k t); [apply Hv|apply Hm].
Qed.

Lemma tile_after_load_uchar (garbage : dim3 -> buffer) (d_input : buffer)
    (cols rows : Z) (bd bi : dim3) :
  uchar_buffer d_input -> uchar_buffer (garbage bi) ->
  uchar_buffer (tile_after_load garbage d_input cols rows bd bi).
Proof.
  intros Hd Hg.
  apply (store_all_uchar (fun t => valid t cols rows) crtShareIndex
           (fun t => d_input (crtGlobalIndex t cols rows))); [exact Hg|].
  intros t. apply Hd.
Qed.

(** ** The sums of a thread, without wrap-around *)

Lemma accumulate_exact (s : buffer) (c : ctx) :
  uchar_buffer s ->
  let e := accumulate_taps (fun v => v) h_sobel_x h_sobel_y s c 1 (taps 1) in
  accumulate to_int h_sobel_x h_sobel_y s c 1 = e /\
  Z.abs (fst e) <= 4590 /\ Z.abs (snd e) <= 4590.
Proof.
  intros Hs. cbv zeta.
  pose proof (taps_never_wrap s c 1 (taps 1) Hs 0 (0, 0)) as Q.
  cbv zeta in Q. cbn [fst snd] in Q.
  destruct Q as (F32 & _ & B1 & B2);
    [lia|lia|change (List.length (taps 1)) with 9%nat; lia|].
  change (List.length (taps 1)) with 9%nat in B1, B2.
  rewrite accumulate_flat. unfold accumulate_taps.
  split; [exact F32|]. lia.
Qed.

(** With the transposed indexing of the code, the exact [sum_x] is the
    convolution of the neighbourhood with the y kernel, and the exact
    [sum_y] its convolution with the x kernel. *)
Lemma exact_is_convolution (s : buffer) (c : ctx) (N : Z -> Z -> Z) :
  (forall i j, -1 <= i <= 1 -> -1 <= j <= 1 -> s (tileIndex c i j) = N i j) ->
  accumulate_taps (fun v => v) h_sobel_x h_sobel_y s c 1 (taps 1) =
    (convolve3 h_sobel_y N, convolve3 h_sobel_x N).
Proof.
  intros HN. unfold accumulate_taps, convolve3.
  assert (Step : forall a1 a2 b1 b2 (e : Z * Z), In e (taps 1) ->
             a1 = b1 /\ a2 = b2 ->
             fst (tap (fun v => v) h_sobel_x h_sobel_y s c 1 (fst e) (snd e) (a1, a2))
               = b1 + N (fst e) (snd e) * coef h_sobel_y (1 + fst e) (1 + snd e) /\
             snd (tap (fun v => v) h_sobel_x h_sobel_y s c 1 (fst e) (snd e) (a1, a2))
               = b2 + N (fst e) (snd e) * coef h_sobel_x (1 + fst e) (1 + snd e)).
  { intros a1 a2 b1 b2 [i j] He [-> ->]. apply taps_In in He. cbn [fst snd].
    unfold tap. cbn [fst snd].
    destruct (h_sobel_transposed (1 + j) (1 + i)) as [Ex Ey]; [lia|lia|].
    rewrite Ex, Ey, HN by lia. split; reflexivity. }
  set (fP := fun (acc : Z * Z) (ij : Z * Z) =>
               tap (fun v => v) h_sobel_x h_sobel_y s c 1 (fst ij) (snd ij) acc).
  set (fy := fun (acc : Z) (ij : Z * Z) =>
               acc + N (fst ij) (snd ij) * coef h_sobel_y (1 + fst ij) (1 + snd ij)).
  set (fx := fun (acc : Z) (ij : Z * Z) =>
               acc + N (fst ij) (snd ij) * coef h_sobel_x (1 + fst ij) (1 + snd ij)).
  assert (Ey : fst (fold_left fP (taps 1) (0, 0)) = fold_left fy (taps 1) 0).
  { apply (fold_left_rel (fun (a : Z * Z) (b : Z) => fst a = b) fP fy); [|reflexivity].
    intros [a1 a2] b0 e He Hab. cbn [fst] in Hab. subst fP fy. cbv beta.
    now destruct (Step a1 a2 b0 a2 e He (conj Hab eq_refl)). }
  assert (Ex : snd (fold_left fP (taps 1) (0, 0)) = fold_left fx (taps 1) 0).
  { apply (fold_left_rel (fun (a : Z * Z) (b : Z) => snd a = b) fP fx); [|reflexivity].
    intros [a1 a2] b0 e He Hab. cbn [snd] in Hab. subst fP fx. cbv beta.
    now destruct (Step a1 a2 a1 b0 e He (conj eq_refl Hab)). }
  rewrite <- Ey, <- Ex. now destruct (fold_left fP (taps 1) (0, 0)).
Qed.

Lemma magnitude_exact (s : Z * Z) :
  Z.abs (fst s) <= 4590 -> Z.abs (snd s) <= 4590 ->
  magnitude s = (Z.abs (fst s) + Z.abs (snd s)) mod 256.
Proof.
  intros H1 H2. unfold magnitude, to_uchar. rewrite to_int_small by lia. reflexivity.
Qed.

Section Neighbourhood.

Variable garbage : dim3 -> buffer.
Variable d_input : buffer.
Variables cols rows batch_sz : Z.
Hypothesis Hok : launch_ok cols rows batch_sz.

(** The cell of row [cy], column [cx] of the slice [b] of the tile. *)
Lemma tile_at_cell (bi : dim3) (b cy cx : Z) :
  0 <= dx bi < ceil16 cols -> 0 <= dy bi < ceil16 rows -> dz bi = 0 ->
  0 <= b < batch_sz -> 0 <= cy < 16 -> 0 <= cx < 16 ->
  tile_after_load garbage d_input cols rows (blockDimHist batch_sz) bi
    (b * 256 + cy * 16 + cx) =
  tile_sample garbage d_input cols rows bi b cy cx.
Proof.
  intros Bx By Bz Hb Hcy Hcx.
  set (t := mkCtx bi (blockDimHist batch_sz) (mkDim3 cx cy b)).
  assert (Ht : in_launch cols rows batch_sz t).
  { unfold in_launch, in_block, t. cbn. repeat split; lia. }
  pose proof (tile_at garbage d_input cols rows batch_sz Hok t Ht) as E.
  rewrite (launch_crtShareIndex _ _ _ Hok t Ht) in E.
  change (blockIdx t) with bi in E. cbn [t threadIdx dx dy dz] in E.
  rewrite E. unfold tile_sample. cbv zeta.
  rewrite (launch_valid _ _ _ Hok t Ht). cbn [t blockIdx threadIdx dx dy dz].
  destruct ((dx bi * 16 + cx <? cols) && (dy bi * 16 + cy <? rows)) eqn:V;
    [|reflexivity].
  assert (Vt : valid t cols rows = true).
  { rewrite (launch_valid _ _ _ Hok t Ht). exact V. }
  rewrite (launch_crtGlobalIndex _ _ _ Hok t Ht Vt).
  rewrite (launch_x _ _ _ Hok t Ht), (launch_y _ _ _ Hok t Ht).
  reflexivity.
Qed.

Variables col row b : Z.
Hypothesis Hcol : 0 <= col < cols.
Hypothesis Hrow : 0 <= row < rows.
Hypothesis Hb : 0 <= b < batch_sz.

(** What the thread of a pixel reads at offsets [i], [j]. *)
Lemma thread_of_reads (i j : Z) :
  -1 <= i <= 1 -> -1 <= j <= 1 ->
  tile_after_load garbage d_input cols rows (blockDimHist batch_sz)
    (blockIdx (thread_of batch_sz col row b))
    (tileIndex (thread_of batch_sz col row b) i j) =
  neighborhood garbage d_input cols rows col row b i j.
Proof.
  intros Hi Hj.
  pose proof (thread_of_in_launch cols rows batch_sz col row b Hcol Hrow Hb)
    as (Ebd & Hin & Bx & By & Bz).
  destruct Hok as (W0 & H0 & B0 & Wb & Hb' & Sz & Bsz).
  rewrite tileIndex_spec;
    [|unfold block_ok, thread_of, blockDimHist; cbn [blockDim dx dy dz]; lia
     |exact Hin|lia|lia].
  unfold thread_of at 1 2 3 4 5 6 7 8. unfold blockDimHist.
  cbn [blockIdx blockDim threadIdx dx dy dz].
  replace (16 - 1) with 15 by lia.
  pose proof (clamp_range 0 15 (row mod 16 + i) ltac:(lia)).
  pose proof (clamp_range 0 15 (col mod 16 + j) ltac:(lia)).
  replace (b * 16 * 16) with (b * 256) by lia.
  unfold neighborhood. apply tile_at_cell; try assumption; lia.
Qed.

End Neighbourhood.

(** ** The value written for a pixel *)

Section Output.

Variable garbage : dim3 -> buffer.
Variables d_input d_output : buffer.
Variables cols rows batch_sz : Z.
Variables col row b : Z.

(** The output sample of a pixel is the truncated L1 magnitude of the two
    exact convolutions of its tile-local neighbourhood. *)
Lemma sobel_launch_pixel :
  launch_ok cols rows batch_sz ->
  uchar_buffer d_input -> (forall bi, uchar_buffer (garbage bi)) ->
  0 <= col < cols -> 0 <= row < rows -> 0 <= b < batch_sz ->
  let N := neighborhood garbage d_input cols rows col row b in
  let tile := tile_after_load garbage d_input cols rows (blockDimHist batch_sz)
                (blockIdx (thread_of batch_sz col row b)) in
  let sums := accumulate to_int h_sobel_x h_sobel_y tile
                (thread_of batch_sz col row b) (radius sobel_width) in
  sums = (convolve3 h_sobel_y N, convolve3 h_sobel_x N) /\
  Z.abs (fst sums) <= 4590 /\ Z.abs (snd sums) <= 4590 /\
  sobel_launch garbage h_sobel_x h_sobel_y d_input cols rows batch_sz sobel_width
    d_output (b * cols * rows + row * cols + col) =
  (Z.abs (fst sums) + Z.abs (snd sums)) mod 256.
Proof.
  intros Hok Hd Hg Hcol Hrow Hb N tile sums.
  assert (Ht : uchar_buffer tile) by (apply tile_after_load_uchar; auto).
  destruct (accumulate_exact tile (thread_of batch_sz col row b) Ht) as (E & B1 & B2).
  assert (Es : sums = accumulate_taps (fun v => v) h_sobel_x h_sobel_y tile
                        (thread_of batch_sz col row b) 1 (taps 1)) by exact E.
  split.
  { rewrite Es. apply exact_is_convolution. intros i j Hi Hj.
    now apply thread_of_reads. }
  rewrite <- Es in B1, B2. split; [exact B1|]. split; [exact B2|].
  rewrite <- (thread_of_outIndex cols rows batch_sz Hok col row b Hcol Hrow Hb).
  rewrite sobel_launch_at_thread;
    [|exact Hok|now apply thread_of_in_launch|now apply thread_of_valid].
  unfold pixel. fold tile. fold sums. now apply magnitude_exact.
Qed.

End Output.

(** C10. Whenever [|sum_x| + |sum_y|] exceeds 255 for a pixel, with [sum_x]
    and [sum_y] the accumulators of its thread at the end of the loops, the
    sample written is [(|sum_x| + |sum_y|) mod 256], the result of the cast
    to [uchar], and so differs from 255 unless that remainder is 255. *)
Theorem magnitude_cast_wraps (garbage : dim3 -> buffer) (d_input d_output : buffer)
    (cols rows batch_sz col row b : Z) :
  launch_ok cols rows batch_sz ->
  uchar_buffer d_input -> (forall bi, uchar_buffer (garbage bi)) ->
  0 <= col < cols -> 0 <= row < rows -> 0 <= b < batch_sz ->
  let tile := tile_after_load garbage d_input cols rows (blockDimHist batch_sz)
                (blockIdx (thread_of batch_sz col row b)) in
  let sums := accumulate to_int h_sobel_x h_sobel_y tile
                (thread_of batch_sz col row b) (radius sobel_width) in
  let sum_x := fst sums in
  let sum_y := snd sums in
  let written :=
    sobel_launch garbage h_sobel_x h_sobel_y d_input cols rows batch_sz sobel_width
      d_output (b * cols * rows + row * cols + col) in
  255 < Z.abs sum_x + Z.abs sum_y ->
  written = (Z.abs sum_x + Z.abs sum_y) mod 256 /\
  (written = 255 <-> (Z.abs sum_x + Z.abs sum_y) mod 256 = 255).
Proof.
  intros Hok Hd Hg Hcol Hrow Hb tile sums sum_x sum_y written Hbig.
  destruct (sobel_launch_pixel garbage d_input d_output cols rows batch_sz col row b
              Hok Hd Hg Hcol Hrow Hb) as (_ & _ & _ & Ew).
  fold tile sums sum_x sum_y written in Ew.
  split; [exact Ew|]. rewrite Ew. tauto.
Qed.

Lemma magnitude_cast_wraps_witness :
  sobel_launch (fun _ _ => 0) h_sobel_x h_sobel_y step_edge 3 3 1 sobel_width
    (fun _ => 0) 1 = 252.
Proof.
  pose proof (magnitude_cast_wraps (fun _ _ => 0) step_edge (fun _ => 0)
                3 3 1 1 0 0) as H.
  cbv zeta in H. destruct H as [E _].
  - by_computation.
  - intros i. unfold step_edge, of_list.
    destruct (Z.to_nat i) as [|[|[|[|[|[|[|[|[|[|n]]]]]]]]]];
      unfold is_uchar; simpl; lia.
  - intros bi i. unfold is_uchar. lia.
  - lia.
  - lia.
  - lia.
  - by_computation.
  - etransitivity; [exact E|vm_compute; reflexivity].
Defined.

(** ** Pixels whose neighbourhood was loaded *)

(** The sums of a thread depend on the tile through the cells it reads. *)
Lemma accumulate_ext (conv : Z -> Z) (kx ky : table) (s1 s2 : buffer) (c : ctx) (r : Z) :
  (forall i j, - r <= i <= r -> - r <= j <= r ->
               s1 (tileIndex c i j) = s2 (tileIndex c i j)) ->
  accumulate conv kx ky s1 c r = accumulate conv kx ky s2 c r.
Proof.
  intros H. rewrite !accumulate_flat. unfold accumulate_taps.
  apply fold_left_ext_in. intros a [i j] Hin. apply taps_In in Hin.
  cbn [fst snd]. unfold tap. now rewrite H by lia.
Qed.

Lemma full_tiles_loaded (cols rows col row : Z) :
  cols mod 16 = 0 -> rows mod 16 = 0 -> 0 <= col < cols -> 0 <= row < rows ->
  neighbourhood_loaded cols rows col row.
Proof.
  intros Mc Mr Hcol Hrow. unfold neighbourhood_loaded.
  pose proof (Z.div_mod cols 16 ltac:(lia)).
  pose proof (Z.div_mod rows 16 ltac:(lia)).
  pose proof (Z.div_mod col 16 ltac:(lia)).
  pose proof (Z.div_mod row 16 ltac:(lia)).
  pose proof (Z.mod_pos_bound col 16 ltac:(lia)).
  pose proof (Z.mod_pos_bound row 16 ltac:(lia)).
  split; lia.
Qed.

Section Loaded.

Variable d_input : buffer.
Variables cols rows batch_sz : Z.
Hypothesis Hok : launch_ok cols rows batch_sz.
Variables col row b : Z.
Hypothesis Hcol : 0 <= col < cols.
Hypothesis Hrow : 0 <= row < rows.
Hypothesis Hb : 0 <= b < batch_sz.
Hypothesis Hloaded : neighbourhood_loaded cols rows col row.

(** Every sample of such a neighbourhood is a sample of the image. *)
Lemma loaded_sample (garbage : dim3 -> buffer) (i j : Z) :
  -1 <= i <= 1 -> -1 <= j <= 1 ->
  neighborhood garbage d_input cols rows col row b i j =
  d_input (b * cols * rows
           + (row / 16 * 16 + clamp 0 15 (row mod 16 + i)) * cols
           + (col / 16 * 16 + clamp 0 15 (col mod 16 + j))).
Proof.
  intros Hi Hj. unfold neighborhood, tile_sample. cbn [dx dy dz].
  pose proof (Z.div_mod col 16 ltac:(lia)).
  pose proof (Z.div_mod row 16 ltac:(lia)).
  pose proof (Z.mod_pos_bound col 16 ltac:(lia)).
  pose proof (Z.mod_pos_bound row 16 ltac:(lia)).
  destruct Hloaded as [Lc Lr].
  assert (Vx : col / 16 * 16 + clamp 0 15 (col mod 16 + j) < cols)
    by (unfold clamp; lia).
  assert (Vy : row / 16 * 16 + clamp 0 15 (row mod 16 + i) < rows)
    by (unfold clamp; lia).
  apply Z.ltb_lt in Vx, Vy. now rewrite Vx, Vy.
Qed.

(** The output sample of such a pixel does not depend on what the block
    found in its shared memory. *)
Lemma loaded_pixel_ignores_garbage (g1 g2 : dim3 -> buffer) (kx ky : table)
    (d_output : buffer) :
  sobel_launch g1 kx ky d_input cols rows batch_sz sobel_width d_output
    (b * cols * rows + row * cols + col) =
  sobel_launch g2 kx ky d_input cols rows batch_sz sobel_width d_output
    (b * cols * rows + row * cols + col).
Proof.
  rewrite <- (thread_of_outIndex cols rows batch_sz Hok col row b Hcol Hrow Hb).
  rewrite !sobel_launch_at_thread;
    try exact Hok; try (now apply thread_of_in_launch); try (now apply thread_of_valid).
  unfold pixel. f_equal. apply accumulate_ext. rewrite radius_sobel_width.
  intros i j Hi Hj.
  rewrite !(thread_of_reads _ d_input cols rows batch_sz Hok col row b Hcol Hrow Hb)
    by lia.
  now rewrite !loaded_sample by lia.
Qed.

(** On an all-zero image the output sample of such a pixel is zero. *)
Lemma loaded_pixel_of_zero_image (garbage : dim3 -> buffer) (d_output : buffer) :
  (forall k, d_input k = 0) ->
  sobel_launch garbage h_sobel_x h_sobel_y d_input cols rows batch_sz sobel_width
    d_output (b * cols * rows + row * cols + col) = 0.
Proof.
  intros Hzero.
  rewrite <- (thread_of_outIndex cols rows batch_sz Hok col row b Hcol Hrow Hb).
  rewrite sobel_launch_at_thread;
    [|exact Hok|now apply thread_of_in_launch|now apply thread_of_valid].
  unfold pixel.
  rewrite (accumulate_ext to_int h_sobel_x h_sobel_y _ (fun _ => 0)).
  - reflexivity.
  - rewrite radius_sobel_width. intros i j Hi Hj.
    rewrite (thread_of_reads _ d_input cols rows batch_sz Hok col row b Hcol Hrow Hb)
      by lia.
    rewrite loaded_sample by lia. apply Hzero.
Qed.

End Loaded.






(** ** Tile cells that no thread wrote *)

(** C3 (the code at the failing input). A 3x3 image is processed by one
    block of 16x16 threads, of which 9 are valid. The thread of column 3,
    row 0 is a thread of the block, is not valid and stores nothing in its
    cell of the tile, cell 3; the thread of pixel (2, 0) reads that cell
    after the barrier. Two runs on the same image and configuration that
    differ only in what the block finds in its shared memory write different
    outputs. *)
Theorem output_depends_on_unwritten_tile :
  let run g :=
    samples (sobel_launch g h_sobel_x h_sobel_y bright_centre 3 3 1 sobel_width
               (fun _ => 0)) 9 in
  let idle := mkCtx (mkDim3 0 0 0) (blockDimHist 1) (mkDim3 3 0 0) in
  run (fun _ _ => 0) = [180; 180; 220; 180; 0; 220; 220; 220; 240] /\
  run (fun _ _ => 255) = [180; 180; 212; 180; 0; 32; 212; 32; 10] /\
  In idle (block_threads (blockDimHist 1) (mkDim3 0 0 0)) /\
  valid idle 3 3 = false /\
  existsb (action_eqb (SharedLoad (crtShareIndex idle)))
    (thread_actions (thread_of 1 2 0 0) 3 3 sobel_width) = true.
Proof.
  cbv zeta. split; [vm_compute; reflexivity|]. split; [vm_compute; reflexivity|].
  split; [apply block_threads_In; by_computation|].
  split; vm_compute; reflexivity.
Qed.

(** C4 (the code at the failing input). On an all-zero 3x3 image, with a
    block whose shared memory holds 7 in every cell when it starts, the
    pixels of the last column and of the last row are written as non-zero
    samples. *)
Theorem zero_input_nonzero_output :
  samples (sobel_launch (fun _ _ => 7) h_sobel_x h_sobel_y (fun _ => 0) 3 3 1
             sobel_width (fun _ => 0)) 9
  = [0; 0; 28; 0; 0; 28; 28; 28; 42].
Proof. vm_compute. reflexivity. Qed.

(** ** The barrier *)

(** A thread that is not valid performs no action at all. *)
Lemma idle_thread_actions (c : ctx) (width height kernel_width : Z) :
  valid c width height = false -> thread_actions c width height kernel_width = [].
Proof. intros V. unfold thread_actions. now rewrite V. Qed.

(** A valid thread stores its sample, passes the barrier, reads the tile and
    stores its result, in that order. *)
Lemma valid_thread_actions (c : ctx) (width height kernel_width : Z) :
  valid c width height = true ->
  exists reads,
    thread_actions c width height kernel_width =
      [GlobalLoad (crtGlobalIndex c width height); SharedStore (crtShareIndex c); Barrier]
      ++ reads ++ [GlobalStore (outIndex c width height)] /\
    forall a, In a reads -> exists i j, a = SharedLoad (tileIndex c i j).
Proof.
  intros V. unfold thread_actions. rewrite V. eexists. split; [reflexivity|].
  intros a Ha. apply in_map_iff in Ha. destruct Ha as ([i j] & <- & _).
  now exists i, j.
Qed.

(** C5 (the code at the failing input). For a 3x3 image the thread of
    column 3, row 0 belongs to the only block and is out of range: it
    performs no load and no store, and it does not execute the barrier
    either, which stands inside the branch of the valid threads. Its
    sibling of pixel (2, 0) passes the barrier and then reads cell 3 of the
    tile, the cell of the out-of-range thread. *)
Theorem out_of_range_worker_skips_barrier :
  let idle := mkCtx (mkDim3 0 0 0) (blockDimHist 1) (mkDim3 3 0 0) in
  In idle (block_threads (blockDimHist 1) (mkDim3 0 0 0)) /\
  valid idle 3 3 = false /\
  thread_actions idle 3 3 sobel_width = [] /\
  existsb (action_eqb Barrier) (thread_actions idle 3 3 sobel_width) = false /\
  crtShareIndex idle = 3 /\
  thread_actions (thread_of 1 2 0 0) 3 3 sobel_width =
    [GlobalLoad 2; SharedStore 2; Barrier;
     SharedLoad 1; SharedLoad 2; SharedLoad 3;
     SharedLoad 1; SharedLoad 2; SharedLoad 3;
     SharedLoad 17; SharedLoad 18; SharedLoad 19;
     GlobalStore 2].
Proof.
  cbv zeta. split; [apply block_threads_In; by_computation|].
  repeat split; vm_compute; reflexivity.
Qed.

(** ** The launch does not look at [kernel_width] *)

Lemma radius_even (kernel_width : Z) :
  0 < kernel_width -> Z.even kernel_width = true ->
  radius kernel_width = radius (kernel_width - 1).
Proof.
  intros Hpos Hev. apply Z.even_spec in Hev. destruct Hev as [m ->].
  unfold radius. rewrite !Z.quot_div_nonneg by lia.
  replace (2 * m - 1 - 1) with ((m - 1) * 2) by lia.
  rewrite Z.div_mul by lia.
  symmetry. apply (Z.div_unique (2 * m - 1) 2 (m - 1) 1); lia.
Qed.

Lemma applySobelFilters_radius (garbage : dim3 -> buffer) (kx ky : table)
    (d_input : buffer) (width height k k' : Z) (gd bd : dim3) (d_output : buffer) :
  radius k = radius k' ->
  applySobelFilters garbage kx ky d_input width height k gd bd d_output =
  applySobelFilters garbage kx ky d_input width height k' gd bd d_output.
Proof.
  intros E. unfold applySobelFilters. apply fold_left_ext_in. intros out bi _.
  unfold run_block. apply fold_left_ext_in. intros out' t _.
  unfold store_thread, pixel. now rewrite E.
Qed.

(** C6 (as amended). The launch of the gradient kernel checks nothing: for
    every [kernel_width] it is dispatched and reports no error, and a
    positive even [kernel_width] has the effect of [kernel_width - 1], the
    radius being [(kernel_width - 1) / 2] truncated; 4 is treated as 3. *)
Theorem kernel_width_unchecked (gd bd : dim3) (d_in d_out : pointer)
    (width height kernel_width : Z) (d : device) :
  let after := launch_applySobelFilters gd bd d_in width height kernel_width d_out d in
  fst after = Ok tt /\
  events (snd after) = events d ++ [Dispatch "applySobelFilters"] /\
  (0 < kernel_width -> Z.even kernel_width = true ->
   after = launch_applySobelFilters gd bd d_in width height (kernel_width - 1) d_out d).
Proof.
  cbv zeta. split; [reflexivity|]. split; [reflexivity|].
  intros Hpos Hev. unfold launch_applySobelFilters, launch.
  now rewrite (applySobelFilters_radius _ _ _ _ _ _ kernel_width (kernel_width - 1))
    by now apply radius_even.
Qed.

Lemma kernel_width_unchecked_witness :
  launch_applySobelFilters (gridDimHist 3 3) (blockDimHist 1) 1%nat 3 3 4 2%nat loaded =
  launch_applySobelFilters (gridDimHist 3 3) (blockDimHist 1) 1%nat 3 3 3 2%nat loaded.
Proof.
  pose proof (kernel_width_unchecked (gridDimHist 3 3) (blockDimHist 1) 1%nat 2%nat
                3 3 4 loaded) as H.
  cbv zeta in H. destruct H as (_ & _ & H).
  apply H; [lia|reflexivity].
Defined.

(** C6 (as stated) fails: launched with [kernel_width = 4], the kernel is
    dispatched, no error is reported and the output buffer is written. *)
Lemma even_kernel_width_dispatched :
  let after :=
    launch_applySobelFilters (gridDimHist 3 3) (blockDimHist 1) 1%nat 3 3 4 2%nat loaded in
  fst after = Ok tt /\
  dispatches (events (snd after)) = 1%nat /\
  samples (memory loaded 2%nat) 9 = [0; 0; 0; 0; 0; 0; 0; 0; 0] /\
  samples (memory (snd after) 2%nat) 9 = [180; 180; 220; 180; 0; 220; 220; 220; 240].
Proof. cbv zeta. repeat split; vm_compute; reflexivity. Qed.

(** ** Device buffers over a run of [sobelFilterCuda] *)

Lemma releases_app (p : pointer) (l1 l2 : list event) :
  releases p (l1 ++ l2) = (releases p l1 + releases p l2)%nat.
Proof. unfold releases. now rewrite filter_app, length_app. Qed.

Lemma acquired_app (p : pointer) (l1 l2 : list event) :
  acquired p (l1 ++ l2) = acquired p l1 || acquired p l2.
Proof. unfold acquired. apply existsb_app. Qed.

(** Events that are no acquisition and no release count for nothing. *)
Lemma other_events (p : pointer) (others : list event) :
  forallb (fun e => negb (buffer_event e)) others = true ->
  releases p others = 0%nat /\ acquired p others = false.
Proof.
  induction others as [|e l IH]; intros H; [split; reflexivity|].
  cbn [forallb] in H. apply andb_true_iff in H. destruct H as [He Hl].
  destruct (IH Hl) as [R A]. unfold releases, acquired in *.
  destruct e; cbn in He; try discriminate He; cbn; auto.
Qed.

(** Symbolic execution of the host code; the kernels and the lists of
    events stay folded. *)
Ltac run_host :=
  cbv beta iota zeta delta
    [sobelFilterCuda setSobelKernels launch_applySobelFilters launch bind ret SAFE_CALL
     release_all cudaMalloc cudaFree cudaMemcpyHostToDevice cudaMemcpyDeviceToHost
     cudaMemcpyToSymbol cudaDeviceSynchronize store_c_sobel_x store_c_sobel_y
     tick boot faults shared calls allocated next_pointer memory c_sobel_x c_sobel_y
     events fst snd].

(** The buffers of a run are the pointers 1 to 4. *)
Ltac count_events Hothers :=
  let p := fresh "p" in
  intros p;
  repeat rewrite ?releases_app, ?acquired_app;
  try rewrite (proj1 (other_events p _ Hothers));
  try rewrite (proj2 (other_events p _ Hothers));
  destruct p as [|[|[|[|[|p]]]]]; vm_compute; reflexivity.

Ltac settle Hothers :=
  run_host; split; [vm_compute; reflexivity|count_events Hothers].

(** The next call of the API either succeeds or ends the run. *)
Ltac call f n Hothers :=
  run_host; destruct (f n) eqn:?; [|settle Hothers|settle Hothers|settle Hothers].




(** * Further properties of the kernel launch *)

(** ** Memory safety *)



(** X2. Every cell of the tile that a thread of the launch stores to or
    reads, for the offsets -1, 0 and 1 of the 3x3 kernels, lies inside the
    [blockSharedMemory] bytes requested for the block on line 128. *)
Theorem tile_accesses_in_bounds (cols rows batch_sz : Z) (c : ctx) (i j : Z) :
  launch_ok cols rows batch_sz -> in_launch cols rows batch_sz c ->
  -1 <= i <= 1 -> -1 <= j <= 1 ->
  0 <= crtShareIndex c < blockSharedMemory batch_sz /\
  0 <= tileIndex c i j < blockSharedMemory batch_sz.
Proof.
  intros Hok Hc Hi Hj.
  rewrite (launch_crtShareIndex _ _ _ Hok c Hc).
  pose proof Hc as (Ebd & Hin & _).
  pose proof Hin as (Tx & Ty & Tz).
  destruct Hok as (W0 & H0 & B0 & Wb & Hb & Sz & Bsz).
  assert (Hblock : block_ok (blockDim c)).
  { rewrite Ebd. unfold block_ok, blockDimHist. cbn [dx dy dz]. lia. }
  rewrite (tileIndex_spec c i j Hblock Hin) by lia.
  rewrite Ebd in *. unfold blockSharedMemory, blockDimHist in *.
  cbn [dx dy dz] in *.
  pose proof (clamp_range 0 (16 - 1) (dy (threadIdx c) + i) ltac:(lia)).
  pose proof (clamp_range 0 (16 - 1) (dx (threadIdx c) + j) ltac:(lia)).
  lia.
Qed.

Lemma tile_accesses_in_bounds_witness :
  0 <= crtShareIndex (thread_of 2 15 15 1) < 512 /\
  0 <= tileIndex (thread_of 2 15 15 1) 1 1 < 512.
Proof.
  apply (tile_accesses_in_bounds 16 16 2 (thread_of 2 15 15 1) 1 1);
    first [by_computation | lia].
Defined.

(** ** Who writes what *)

Lemma sample_coordinates (cols rows batch_sz k : Z) :
  0 < cols -> 0 < rows -> 0 <= k < cols * rows * batch_sz ->
  let col := k mod cols in
  let row := (k / cols) mod rows in
  let b := k / cols / rows in
  0 <= col < cols /\ 0 <= row < rows /\ 0 <= b < batch_sz /\
  b * cols * rows + row * cols + col = k.
Proof.
  intros W0 H0 Hk. cbv zeta.
  pose proof (Z.div_mod k cols ltac:(lia)) as E1.
  pose proof (Z.mod_pos_bound k cols ltac:(lia)) as M1.
  pose proof (Z.div_mod (k / cols) rows ltac:(lia)) as E2.
  pose proof (Z.mod_pos_bound (k / cols) rows ltac:(lia)) as M2.
  assert (0 <= k / cols) by (apply Z.div_pos; lia).
  assert (0 <= k / cols / rows) by (apply Z.div_pos; lia).
  assert (k / cols < rows * batch_sz)
    by (apply Z.div_lt_upper_bound; [lia|nia]).
  assert (k / cols / rows < batch_sz)
    by (apply Z.div_lt_upper_bound; [lia|nia]).
  repeat split; first [lia | nia].
Qed.



(** X4. The launch leaves every sample of [d_output] outside the
    [numElemts] samples of the batch as it was. *)
Theorem launch_writes_inside_only (garbage : dim3 -> buffer) (kx ky : table)
    (d_input d_output : buffer) (cols rows batch_sz kernel_width k : Z) :
  launch_ok cols rows batch_sz ->
  k < 0 \/ numElemts cols rows batch_sz <= k ->
  sobel_launch garbage kx ky d_input cols rows batch_sz kernel_width d_output k =
  d_output k.
Proof.
  intros Hok Hk. apply sobel_launch_elsewhere.
  intros t Ht V E.
  pose proof (launch_flat_bound _ _ _ Hok t Ht V) as F.
  rewrite (launch_outIndex _ _ _ Hok t Ht V) in E. unfold numElemts in Hk. lia.
Qed.

Lemma launch_writes_inside_only_witness :
  sobel_launch (fun _ _ => 0) h_sobel_x h_sobel_y step_edge 3 3 1 sobel_width
    (fun _ => 77) 9 = 77.
Proof.
  apply (launch_writes_inside_only (fun _ _ => 0) h_sobel_x h_sobel_y step_edge
           (fun _ => 77) 3 3 1 sobel_width 9);
    first [by_computation | right; by_computation].
Defined.

(** ** Range of the sums and constant images *)

Lemma taps_1 :
  taps 1 = [(-1, -1); (-1, 0); (-1, 1); (0, -1); (0, 0); (0, 1); (1, -1); (1, 0); (1, 1)].
Proof. reflexivity. Qed.

Ltac evaluate_coefficients :=
  repeat match goal with
         | |- context [coef ?t ?a ?b] =>
             let v := eval vm_compute in (coef t a b) in
             change (coef t a b) with v
         end.

Lemma convolve3_h_sobel_x (N : Z -> Z -> Z) :
  convolve3 h_sobel_x N =
  (N (-1) 1 + 2 * N 0 1 + N 1 1) - (N (-1) (-1) + 2 * N 0 (-1) + N 1 (-1)).
Proof.
  unfold convolve3. rewrite taps_1. cbn [fold_left fst snd].
  evaluate_coefficients. lia.
Qed.

Lemma convolve3_h_sobel_y (N : Z -> Z -> Z) :
  convolve3 h_sobel_y N =
  (N 1 (-1) + 2 * N 1 0 + N 1 1) - (N (-1) (-1) + 2 * N (-1) 0 + N (-1) 1).
Proof.
  unfold convolve3. rewrite taps_1. cbn [fold_left fst snd].
  evaluate_coefficients. lia.
Qed.

(** The sums of a thread as convolutions of what it reads. *)
Lemma accumulate_is_convolution (s : buffer) (c : ctx) :
  uchar_buffer s ->
  accumulate to_int h_sobel_x h_sobel_y s c (radius sobel_width) =
    (convolve3 h_sobel_y (fun i j => s (tileIndex c i j)),
     convolve3 h_sobel_x (fun i j => s (tileIndex c i j))).
Proof.
  intros Hs. rewrite radius_sobel_width.
  destruct (accumulate_exact s c Hs) as (E & _). rewrite E.
  now apply exact_is_convolution.
Qed.

(** X5. For a tile of 8-bit samples each of the two sums of a thread lies
    between -1020 and 1020, so the magnitude that is cast to [uchar] is at
    most 2040. *)
Theorem sums_within_1020 (s : buffer) (c : ctx) :
  uchar_buffer s ->
  let sums := accumulate to_int h_sobel_x h_sobel_y s c (radius sobel_width) in
  - 1020 <= fst sums <= 1020 /\ - 1020 <= snd sums <= 1020 /\
  Z.abs (fst sums) + Z.abs (snd sums) <= 2040.
Proof.
  intros Hs sums. subst sums. rewrite (accumulate_is_convolution s c Hs).
  cbn [fst snd]. rewrite convolve3_h_sobel_x, convolve3_h_sobel_y.
  pose proof (Hs (tileIndex c (-1) (-1))). pose proof (Hs (tileIndex c (-1) 0)).
  pose proof (Hs (tileIndex c (-1) 1)). pose proof (Hs (tileIndex c 0 (-1))).
  pose proof (Hs (tileIndex c 0 1)). pose proof (Hs (tileIndex c 1 (-1))).
  pose proof (Hs (tileIndex c 1 0)). pose proof (Hs (tileIndex c 1 1)).
  unfold is_uchar in *. lia.
Qed.

Lemma sums_within_1020_witness :
  let sums := accumulate to_int h_sobel_x h_sobel_y
                (tile_after_load (fun _ _ => 0) step_edge 3 3 (blockDimHist 1)
                   (mkDim3 0 0 0))
                (thread_of 1 1 1 0) (radius sobel_width) in
  snd sums = 1020 /\ - 1020 <= fst sums <= 1020.
Proof.
  pose proof (sums_within_1020
                (tile_after_load (fun _ _ => 0) step_edge 3 3 (blockDimHist 1)
                   (mkDim3 0 0 0)) (thread_of 1 1 1 0)) as H.
  cbv zeta in H. destruct H as (B1 & _ & _).
  - apply tile_after_load_uchar.
    + intros i. unfold step_edge, of_list.
      destruct (Z.to_nat i) as [|[|[|[|[|[|[|[|[|[|n]]]]]]]]]];
        unfold is_uchar; simpl; lia.
    + intros i. unfold is_uchar. lia.
  - cbv zeta. split; [vm_compute; reflexivity|exact B1].
Defined.

Section Constant.

Variable garbage : dim3 -> buffer.
Variables d_input d_output : buffer.
Variables cols rows batch_sz : Z.
Variables col row b : Z.

(** X6. Where the image is constant over the loaded neighbourhood of a
    pixel, whatever the constant, the sample written for the pixel is 0: the
    coefficients of each kernel sum to zero. *)
Theorem constant_image_gives_zero (v : Z) :
  launch_ok cols rows batch_sz ->
  0 <= col < cols -> 0 <= row < rows -> 0 <= b < batch_sz ->
  neighbourhood_loaded cols rows col row ->
  is_uchar v -> (forall k, d_input k = v) ->
  sobel_launch garbage h_sobel_x h_sobel_y d_input cols rows batch_sz sobel_width
    d_output (b * cols * rows + row * cols + col) = 0.
Proof.
  intros Hok Hcol Hrow Hb Hl Hv Hconst.
  rewrite <- (thread_of_outIndex cols rows batch_sz Hok col row b Hcol Hrow Hb).
  rewrite sobel_launch_at_thread;
    [|exact Hok|now apply thread_of_in_launch|now apply thread_of_valid].
  unfold pixel.
  rewrite (accumulate_ext to_int h_sobel_x h_sobel_y _ (fun _ => v)).
  - rewrite accumulate_is_convolution by (intros k; exact Hv).
    unfold magnitude. cbn [fst snd].
    rewrite convolve3_h_sobel_x, convolve3_h_sobel_y.
    replace (v + 2 * v + v - (v + 2 * v + v)) with 0 by lia. reflexivity.
  - rewrite radius_sobel_width. intros i j Hi Hj.
    rewrite (thread_of_reads _ d_input cols rows batch_sz Hok col row b Hcol Hrow Hb)
      by lia.
    rewrite (loaded_sample d_input cols rows col row b Hcol Hrow Hl) by lia.
    apply Hconst.
Qed.

End Constant.

Lemma constant_image_gives_zero_witness :
  sobel_launch (fun _ _ => 9) h_sobel_x h_sobel_y (fun _ => 200) 3 3 1 sobel_width
    (fun _ => 5) 4 = 0.
Proof.
  apply (constant_image_gives_zero (fun _ _ => 9) (fun _ => 200) (fun _ => 5)
           3 3 1 1 1 0 200);
    first [by_computation | left; by_computation | reflexivity | idtac].
  - unfold neighbourhood_loaded. split; left; by_computation.
Defined.

(** ** Degenerate kernel widths *)

Lemma radius_negative (kernel_width : Z) : kernel_width <= -1 -> radius kernel_width <= -1.
Proof.
  intros H. unfold radius. Z.to_euclidean_division_equations. lia.
Qed.

Lemma radius_zero (kernel_width : Z) : 0 <= kernel_width <= 2 -> radius kernel_width = 0.
Proof.
  intros H. unfold radius.
  assert (C : kernel_width = 0 \/ kernel_width = 1 \/ kernel_width = 2) by lia.
  destruct C as [-> | [-> | ->]]; reflexivity.
Qed.

Section Degenerate.

Variable garbage : dim3 -> buffer.
Variables d_input d_output : buffer.
Variables cols rows batch_sz : Z.
Variables col row b : Z.

(** X7. With an [int kernel_width] of -1 or less, [INT_MIN] excepted (there
    [kernel_width - 1] overflows), the radius is negative, the two loops are
    empty, and the kernel writes 0 for every pixel, whatever the image and
    the tables in constant memory. *)
Theorem negative_kernel_width_writes_zero (kx ky : table) (kernel_width : Z) :
  launch_ok cols rows batch_sz ->
  0 <= col < cols -> 0 <= row < rows -> 0 <= b < batch_sz ->
  - 2 ^ 31 < kernel_width <= -1 ->
  sobel_launch garbage kx ky d_input cols rows batch_sz kernel_width d_output
    (b * cols * rows + row * cols + col) = 0.
Proof.
  intros Hok Hcol Hrow Hb [Hint Hk].
  rewrite <- (thread_of_outIndex cols rows batch_sz Hok col row b Hcol Hrow Hb).
  rewrite sobel_launch_at_thread;
    [|exact Hok|now apply thread_of_in_launch|now apply thread_of_valid].
  pose proof (radius_negative kernel_width Hk) as Hr.
  unfold pixel, accumulate, for_loop.
  rewrite (range_empty (- radius kernel_width) (radius kernel_width)) by lia.
  reflexivity.
Qed.

(** X8. With a [kernel_width] of 0, 1 or 2 the radius is 0: the only tap is
    the pixel itself with coefficient -1 in both tables, and the kernel
    writes twice the input sample, reduced modulo 256. *)
Theorem unit_kernel_width_doubles_sample (kernel_width : Z) :
  launch_ok cols rows batch_sz ->
  0 <= col < cols -> 0 <= row < rows -> 0 <= b < batch_sz ->
  is_uchar (d_input (b * cols * rows + row * cols + col)) ->
  0 <= kernel_width <= 2 ->
  sobel_launch garbage h_sobel_x h_sobel_y d_input cols rows batch_sz kernel_width
    d_output (b * cols * rows + row * cols + col) =
  (2 * d_input (b * cols * rows + row * cols + col)) mod 256.
Proof.
  intros Hok Hcol Hrow Hb Hv Hk.
  rewrite <- (thread_of_outIndex cols rows batch_sz Hok col row b Hcol Hrow Hb) at 1.
  rewrite sobel_launch_at_thread;
    [|exact Hok|now apply thread_of_in_launch|now apply thread_of_valid].
  unfold pixel. rewrite (radius_zero kernel_width Hk).
  unfold accumulate, for_loop. change (range (- 0) 0) with [0].
  cbn [fold_left]. unfold tap. cbn [fst snd].
  rewrite (thread_of_reads garbage d_input cols rows batch_sz Hok col row b
             Hcol Hrow Hb 0 0) by lia.
  unfold neighborhood, tile_sample. cbn [dx dy dz].
  pose proof (Z.div_mod col 16 ltac:(lia)).
  pose proof (Z.div_mod row 16 ltac:(lia)).
  pose proof (Z.mod_pos_bound col 16 ltac:(lia)).
  pose proof (Z.mod_pos_bound row 16 ltac:(lia)).
  replace (clamp 0 15 (row mod 16 + 0)) with (row mod 16) by (unfold clamp; lia).
  replace (clamp 0 15 (col mod 16 + 0)) with (col mod 16) by (unfold clamp; lia).
  replace (col / 16 * 16 + col mod 16) with col by lia.
  replace (row / 16 * 16 + row mod 16) with row by lia.
  destruct (Z.ltb_spec col cols) as [_|]; [|lia].
  destruct (Z.ltb_spec row rows) as [_|]; [|lia].
  cbn [andb]. evaluate_coefficients.
  unfold is_uchar in Hv. unfold magnitude, to_uchar. cbn [fst snd].
  set (v := d_input (b * cols * rows + row * cols + col)) in *.
  rewrite (to_int_small (0 + v * -1)) by lia. rewrite to_int_small by lia.
  f_equal. lia.
Qed.

End Degenerate.

Lemma negative_kernel_width_writes_zero_witness :
  sobel_launch (fun _ _ => 9) h_sobel_x h_sobel_y step_edge 3 3 1 (-1) (fun _ => 5) 4 = 0.
Proof.
  apply (negative_kernel_width_writes_zero (fun _ _ => 9) step_edge (fun _ => 5)
           3 3 1 1 1 0 h_sobel_x h_sobel_y (-1)); by_computation.
Defined.

Lemma unit_kernel_width_doubles_sample_witness :
  sobel_launch (fun _ _ => 9) h_sobel_x h_sobel_y step_edge 3 3 1 1 (fun _ => 5) 5
  = (2 * 255) mod 256.
Proof.
  apply (unit_kernel_width_doubles_sample (fun _ _ => 9) step_edge (fun _ => 5)
           3 3 1 2 1 0 1); by_computation.
Defined.

(** ** What a sample depends on *)

(** X9. For a pixel whose clamped neighbourhood lies inside the image, the
    sample written depends on the input only through the samples of the same
    image that lie in the 16x16 tile of the pixel: two runs whose inputs
    agree there write the same sample, whatever their blocks found in shared
    memory, even when the inputs differ in the pixels next to it across the
    edge of the tile or in the other images of the batch. *)
Theorem output_depends_on_own_tile_only (g g' : dim3 -> buffer) (kx ky : table)
    (d_input d_input' d_output : buffer) (cols rows batch_sz col row b : Z) :
  launch_ok cols rows batch_sz ->
  0 <= col < cols -> 0 <= row < rows -> 0 <= b < batch_sz ->
  neighbourhood_loaded cols rows col row ->
  (forall px py, 0 <= px < cols -> 0 <= py < rows ->
                 px / 16 = col / 16 -> py / 16 = row / 16 ->
                 d_input (b * cols * rows + py * cols + px) =
                 d_input' (b * cols * rows + py * cols + px)) ->
  sobel_launch g kx ky d_input cols rows batch_sz sobel_width d_output
    (b * cols * rows + row * cols + col) =
  sobel_launch g' kx ky d_input' cols rows batch_sz sobel_width d_output
    (b * cols * rows + row * cols + col).
Proof.
  intros Hok Hcol Hrow Hb Hl Hsame.
  rewrite (loaded_pixel_ignores_garbage d_input cols rows batch_sz Hok col row b
             Hcol Hrow Hb Hl g g').
  rewrite <- (thread_of_outIndex cols rows batch_sz Hok col row b Hcol Hrow Hb).
  rewrite !sobel_launch_at_thread;
    try exact Hok; try (now apply thread_of_in_launch); try (now apply thread_of_valid).
  unfold pixel. f_equal. apply accumulate_ext. rewrite radius_sobel_width.
  intros i j Hi Hj.
  rewrite !(thread_of_reads g' _ cols rows batch_sz Hok col row b Hcol Hrow Hb)
    by lia.
  unfold neighborhood, tile_sample. cbn [dx dy dz].
  pose proof (clamp_range 0 15 (row mod 16 + i) ltac:(lia)) as Cy.
  pose proof (clamp_range 0 15 (col mod 16 + j) ltac:(lia)) as Cx.
  assert (0 <= col / 16) by (apply Z.div_pos; lia).
  assert (0 <= row / 16) by (apply Z.div_pos; lia).
  destruct (Z.ltb_spec (col / 16 * 16 + clamp 0 15 (col mod 16 + j)) cols) as [Vx|];
    [|reflexivity].
  destruct (Z.ltb_spec (row / 16 * 16 + clamp 0 15 (row mod 16 + i)) rows) as [Vy|];
    [|reflexivity].
  cbn [andb]. apply Hsame; try lia.
  - rewrite Z.div_add_l by lia. rewrite (Z.div_small (clamp 0 15 (col mod 16 + j))); lia.
  - rewrite Z.div_add_l by lia. rewrite (Z.div_small (clamp 0 15 (row mod 16 + i))); lia.
Qed.

Lemma output_depends_on_own_tile_only_witness :
  sobel_launch (fun _ _ => 0) h_sobel_x h_sobel_y (fun _ => 0) 32 16 1 sobel_width
    (fun _ => 0) (0 * 32 * 16 + 15 * 32 + 15) =
  sobel_launch (fun _ _ => 9) h_sobel_x h_sobel_y (fun k => if k =? 496 then 255 else 0)
    32 16 1 sobel_width (fun _ => 0) (0 * 32 * 16 + 15 * 32 + 15).
Proof.
  apply (output_depends_on_own_tile_only (fun _ _ => 0) (fun _ _ => 9)
           h_sobel_x h_sobel_y (fun _ => 0) (fun k => if k =? 496 then 255 else 0)
           (fun _ => 0) 32 16 1 15 15 0).
  - by_computation.
  - lia.
  - lia.
  - lia.
  - split; [left; by_computation|right; reflexivity].
  - intros px py Hx Hy Ex Ey. change (15 / 16) with 0 in Ex.
    assert (px < 16) by (apply Z.div_small_iff in Ex; lia).
    destruct (Z.eqb_spec (0 * 32 * 16 + py * 32 + px) 496); [lia|reflexivity].
Defined.


(** ** Independence of the schedule *)

Lemma store_all_cases {T : Type} (p : T -> bool) (k : T -> Z) (l : list T) (a : Z) :
  (exists t, In t l /\ p t = true /\ k t = a) \/
  (forall t, In t l -> p t = true -> k t <> a).
Proof.
  induction l as [|t0 l IH].
  - right. intros t [].
  - destruct IH as [(t & Hin & Hp & Hk) | Hnone].
    + left. exists t. split; [now right|auto].
    + destruct (p t0) eqn:Hp0.
      * destruct (Z.eq_dec (k t0) a) as [E|NE].
        -- left. exists t0. split; [now left|auto].
        -- right. intros t [<- | Hin] Hp; [exact NE|now apply Hnone].
      * right. intros t [<- | Hin] Hp; [congruence|now apply Hnone].
Qed.

(** Two sequences of the same threads, in which no two guarded threads
    share a cell, store the same content. *)
Lemma store_all_same_members {T : Type} (p : T -> bool) (k v v' : T -> Z)
    (l l' : list T) (m : buffer) (a : Z) :
  (forall t, In t l <-> In t l') ->
  (forall t, In t l -> p t = true -> v t = v' t) ->
  (forall t t', In t l -> In t' l -> p t = true -> p t' = true -> k t = k t' -> t = t') ->
  store_all p k v l m a = store_all p k v' l' m a.
Proof.
  intros Hmem Hv Hinj.
  destruct (store_all_cases p k l a) as [(t & Hin & Hp & <-) | Hnone].
  - rewrite (store_all_hit p k v l m t Hin Hp).
    + rewrite (store_all_hit p k v' l' m t); [now apply Hv|now apply Hmem|exact Hp|].
      intros t' Hin' Hp' E. apply Hmem in Hin'.
      now rewrite (Hinj t' t Hin' Hin Hp' Hp E).
    + intros t' Hin' Hp' E. now rewrite (Hinj t' t Hin' Hin Hp' Hp E).
  - rewrite (store_all_miss p k v l m a Hnone).
    symmetry. apply store_all_miss. intros t Hin. apply Hnone. now apply Hmem.
Qed.

Lemma pixel_ext (kx ky : table) (s1 s2 : buffer) (c : ctx) (kernel_width : Z) :
  (forall a, s1 a = s2 a) ->
  pixel kx ky s1 c kernel_width = pixel kx ky s2 c kernel_width.
Proof.
  intros H. unfold pixel. f_equal. apply accumulate_ext. intros; apply H.
Qed.

Section Schedule.

Variables kx ky : table.
Variable d_input : buffer.
Variables cols rows batch_sz : Z.
Hypothesis Hok : launch_ok cols rows batch_sz.
Hypothesis Hcols : cols mod 16 = 0.
Hypothesis Hrows : rows mod 16 = 0.
Variable blocks : list dim3.
Variables before after : dim3 -> list ctx.
Hypothesis Hblocks : Permutation blocks (grid_blocks (gridDimHist cols rows)).
Hypothesis Hbefore :
  forall bi, Permutation (before bi) (block_threads (blockDimHist batch_sz) bi).
Hypothesis Hafter :
  forall bi, Permutation (after bi) (block_threads (blockDimHist batch_sz) bi).

Lemma in_grid_block (bi : dim3) (t : ctx) :
  In bi (grid_blocks (gridDimHist cols rows)) ->
  In t (block_threads (blockDimHist batch_sz) bi) ->
  in_launch cols rows batch_sz t /\ blockIdx t = bi.
Proof.
  intros Hbi Ht. split.
  - apply grid_threads_In. unfold grid_threads. apply in_flat_map. now exists bi.
  - apply block_threads_In in Ht. tauto.
Qed.

(** The tile of a block at the barrier, whatever the order of the loads and
    whatever the shared memory held before them. *)
Lemma scheduled_tile (s : buffer) (bi : dim3) (a : Z) :
  In bi (grid_blocks (gridDimHist cols rows)) ->
  fold_left (load_thread d_input cols rows) (before bi) s a =
  tile_after_load (fun _ => s) d_input cols rows (blockDimHist batch_sz) bi a.
Proof.
  intros Hbi.
  apply (store_all_same_members (fun t => valid t cols rows) crtShareIndex
           (fun t => d_input (crtGlobalIndex t cols rows))
           (fun t => d_input (crtGlobalIndex t cols rows))).
  - intros t. split; intros H.
    + exact (Permutation_in t (Hbefore bi) H).
    + exact (Permutation_in t (Permutation_sym (Hbefore bi)) H).
  - reflexivity.
  - intros t t' Ht Ht' _ _ E.
    apply (Permutation_in _ (Hbefore bi)) in Ht, Ht'.
    destruct (in_grid_block bi t Hbi Ht) as [Lt Bt].
    destruct (in_grid_block bi t' Hbi Ht') as [Lt' Bt'].
    apply (crtShareIndex_inj cols rows batch_sz Hok t t' Lt Lt'); congruence.
Qed.

(** With full tiles every thread of the launch is valid. *)
Lemma full_tiles_valid (t : ctx) :
  in_launch cols rows batch_sz t -> valid t cols rows = true.
Proof.
  intros Ht. rewrite (launch_valid _ _ _ Hok t Ht).
  destruct Ht as (Ebd & (Tx & Ty & Tz) & Bx & By & Bz).
  rewrite Ebd in Tx, Ty, Tz. cbn in Tx, Ty, Tz.
  unfold ceil16 in Bx, By.
  pose proof (Z.div_mod cols 16 ltac:(lia)) as Ec.
  pose proof (Z.div_mod rows 16 ltac:(lia)) as Er.
  assert (Dc : (cols + 15) / 16 = cols / 16).
  { symmetry. apply (Z.div_unique (cols + 15) 16 (cols / 16) 15); lia. }
  assert (Dr : (rows + 15) / 16 = rows / 16).
  { symmetry. apply (Z.div_unique (rows + 15) 16 (rows / 16) 15); lia. }
  apply andb_true_iff. split; apply Z.ltb_lt; lia.
Qed.

(** The value a thread writes, whatever tile its block started from. *)
Lemma scheduled_pixel (g : dim3 -> buffer) (s : buffer) (t : ctx) :
  in_launch cols rows batch_sz t ->
  pixel kx ky (fold_left (load_thread d_input cols rows) (before (blockIdx t)) s)
    t sobel_width =
  pixel kx ky (tile_after_load g d_input cols rows (blockDimHist batch_sz) (blockIdx t))
    t sobel_width.
Proof.
  intros Ht.
  assert (Hbi : In (blockIdx t) (grid_blocks (gridDimHist cols rows))).
  { apply grid_blocks_In. destruct Ht as (_ & _ & Bx & By & Bz).
    unfold gridDimHist. cbn [dx dy dz]. lia. }
  rewrite (pixel_ext kx ky _ _ t sobel_width
             (fun a => scheduled_tile s (blockIdx t) a Hbi)).
  pose proof (full_tiles_valid t Ht) as V.
  pose proof (launch_flat_bound _ _ _ Hok t Ht V) as F.
  rewrite <- (sobel_launch_at_thread (fun _ => s) kx ky d_input cols rows batch_sz
                sobel_width Hok (fun _ => 0) t Ht V).
  rewrite <- (sobel_launch_at_thread g kx ky d_input cols rows batch_sz
                sobel_width Hok (fun _ => 0) t Ht V).
  rewrite (launch_outIndex _ _ _ Hok t Ht V).
  rewrite (launch_valid _ _ _ Hok t Ht) in V.
  apply andb_true_iff in V. destruct V as [Vx Vy]. apply Z.ltb_lt in Vx, Vy.
  rewrite (launch_x _ _ _ Hok t Ht), (launch_y _ _ _ Hok t Ht) in *.
  destruct Ht as (Ebd & (Tx & Ty & Tz) & Bx & By & Bz).
  rewrite Ebd in Tx, Ty, Tz. cbn in Tx, Ty, Tz.
  apply (loaded_pixel_ignores_garbage d_input cols rows batch_sz Hok); try lia.
  apply full_tiles_loaded; try assumption; lia.
Qed.

Lemma scheduled_blocks (stale : dim3 -> buffer -> buffer) (g : dim3 -> buffer)
    (l : list dim3) :
  (forall bi, In bi l -> In bi (grid_blocks (gridDimHist cols rows))) ->
  forall (s out : buffer),
    snd (fold_left
           (run_block_scheduled stale kx ky d_input cols rows sobel_width before after)
           l (s, out)) =
    fold_left
      (fun out' bi =>
         fold_left
           (store_thread kx ky cols rows sobel_width
              (tile_after_load g d_input cols rows (blockDimHist batch_sz) bi))
           (after bi) out')
      l out.
Proof.
  induction l as [|bi l IH]; intros Hl s out; [reflexivity|].
  cbn [fold_left]. unfold run_block_scheduled at 2. cbn [fst snd].
  rewrite IH by (intros bi' H; apply Hl; now right).
  f_equal. apply fold_left_ext_in. intros out' t Ht.
  apply (Permutation_in _ (Hafter bi)) in Ht.
  destruct (in_grid_block bi t (Hl bi (or_introl eq_refl)) Ht) as [Lt <-].
  unfold store_thread. now rewrite (scheduled_pixel g (stale (blockIdx t) s) t Lt).
Qed.

Lemma scheduled_output (stale : dim3 -> buffer -> buffer) (s0 : buffer)
    (g : dim3 -> buffer) (d_output : buffer) (k : Z) :
  applySobelFilters_scheduled stale s0 kx ky d_input cols rows sobel_width
    blocks before after d_output k =
  sobel_launch g kx ky d_input cols rows batch_sz sobel_width d_output k.
Proof.
  assert (Hgrid : forall bi, In bi blocks -> In bi (grid_blocks (gridDimHist cols rows)))
    by (intros bi; apply Permutation_in; exact Hblocks).
  assert (Hthreads : forall bi t, In t (after bi) ->
                       In t (block_threads (blockDimHist batch_sz) bi))
    by (intros bi t; apply Permutation_in; exact (Hafter bi)).
  unfold applySobelFilters_scheduled. rewrite (scheduled_blocks stale g blocks Hgrid).
  unfold sobel_launch. rewrite applySobelFilters_store_all.
  transitivity
    (store_all (fun t => valid t cols rows) (fun t => outIndex t cols rows)
       (fun t => pixel kx ky
                   (tile_after_load g d_input cols rows (blockDimHist batch_sz)
                      (blockIdx t)) t sobel_width)
       (flat_map after blocks) d_output k).
  { unfold store_all. rewrite fold_left_flat_map.
    apply (f_equal (fun m : buffer => m k)).
    apply fold_left_ext_in. intros out bi Hbi.
    apply fold_left_ext_in. intros out' t Ht.
    destruct (in_grid_block bi t (Hgrid bi Hbi) (Hthreads bi t Ht)) as [_ <-].
    reflexivity. }
  apply store_all_same_members.
  - intros t. unfold grid_threads. rewrite !in_flat_map. split.
    + intros (bi & Hbi & Ht). exists bi. split; [now apply Hgrid|now apply Hthreads].
    + intros (bi & Hbi & Ht). exists bi. split.
      * exact (Permutation_in bi (Permutation_sym Hblocks) Hbi).
      * exact (Permutation_in t (Permutation_sym (Hafter bi)) Ht).
  - reflexivity.
  - intros t t' Ht Ht' V V' E.
    apply in_flat_map in Ht, Ht'.
    destruct Ht as (bi & Hbi & Ht), Ht' as (bi' & Hbi' & Ht').
    destruct (in_grid_block bi t (Hgrid bi Hbi) (Hthreads bi t Ht)) as [Lt _].
    destruct (in_grid_block bi' t' (Hgrid bi' Hbi') (Hthreads bi' t' Ht')) as [Lt' _].
    exact (outIndex_inj cols rows batch_sz Hok t t' Lt Lt' V V' E).
Qed.

End Schedule.

(** X10. When the numbers of columns and of rows are multiples of 16, so
    that every thread is valid and reaches the barrier, the output of the
    launch does not depend on the schedule: whatever the order in which the
    blocks run, whatever each block finds in shared memory (the tile left
    by the block before it, or anything else), and whatever the orders in
    which the threads of a block run their part before the barrier and
    their part after it, every sample of the output buffer is the one
    obtained when blocks and threads run in the order of their indices. *)
Theorem schedule_independent (stale : dim3 -> buffer -> buffer) (s0 : buffer)
    (g : dim3 -> buffer) (kx ky : table)
    (d_input d_output : buffer) (cols rows batch_sz : Z)
    (blocks : list dim3) (before after : dim3 -> list ctx) :
  launch_ok cols rows batch_sz ->
  cols mod 16 = 0 -> rows mod 16 = 0 ->
  Permutation blocks (grid_blocks (gridDimHist cols rows)) ->
  (forall bi, Permutation (before bi) (block_threads (blockDimHist batch_sz) bi)) ->
  (forall bi, Permutation (after bi) (block_threads (blockDimHist batch_sz) bi)) ->
  forall k,
    applySobelFilters_scheduled stale s0 kx ky d_input cols rows sobel_width
      blocks before after d_output k =
    sobel_launch g kx ky d_input cols rows batch_sz sobel_width d_output k.
Proof.
  intros Hok Hc Hr Hblocks Hbefore Hafter k. now apply scheduled_output.
Qed.

Lemma schedule_independent_witness :
  applySobelFilters_scheduled (fun _ s => s) (fun _ => 200) h_sobel_x h_sobel_y (fun k => k mod 251)
    32 16 sobel_width
    (rev (grid_blocks (gridDimHist 32 16)))
    (fun bi => rev (block_threads (blockDimHist 1) bi))
    (fun bi => rev (block_threads (blockDimHist 1) bi))
    (fun _ => 0) 15 =
  sobel_launch (fun _ _ => 3) h_sobel_x h_sobel_y (fun k => k mod 251) 32 16 1
    sobel_width (fun _ => 0) 15.
Proof.
  apply (schedule_independent (fun _ s => s) (fun _ => 200) (fun _ _ => 3) h_sobel_x h_sobel_y
           (fun k => k mod 251) (fun _ => 0) 32 16 1).
  - by_computation.
  - reflexivity.
  - reflexivity.
  - apply Permutation_sym, Permutation_rev.
  - intros bi. apply Permutation_sym, Permutation_rev.
  - intros bi. apply Permutation_sym, Permutation_rev.
Defined.


(** * Further properties of the output *)

(** ** One image of a batch alone *)

(** The sums of two threads that read the same samples are the same. *)
Lemma accumulate_reads (conv : Z -> Z) (kx ky : table) (s1 s2 : buffer)
    (c1 c2 : ctx) (r : Z) :
  (forall i j, - r <= i <= r -> - r <= j <= r ->
               s1 (tileIndex c1 i j) = s2 (tileIndex c2 i j)) ->
  accumulate conv kx ky s1 c1 r = accumulate conv kx ky s2 c2 r.
Proof.
  intros H. rewrite !accumulate_flat. unfold accumulate_taps.
  apply fold_left_ext_in. intros a [i j] Hin. apply taps_In in Hin.
  cbn [fst snd]. unfold tap. now rewrite H by lia.
Qed.

Lemma launch_ok_single (cols rows batch_sz : Z) :
  launch_ok cols rows batch_sz -> launch_ok cols rows 1.
Proof.
  unfold launch_ok. intros (W0 & H0 & B0 & Wb & Hb & Sz & Bsz).
  repeat split; first [lia | nia].
Qed.

(** X15. The samples written for image [b] of a batch are those written
    when that image is processed alone, as a batch of one, by blocks that
    find in their shared memory what the slice [b] of the tile held: the
    other images of the batch have no influence. *)
Theorem batch_independent (garbage : dim3 -> buffer) (kx ky : table)
    (d_input d_output d_output' : buffer) (cols rows batch_sz col row b : Z) :
  launch_ok cols rows batch_sz ->
  0 <= col < cols -> 0 <= row < rows -> 0 <= b < batch_sz ->
  sobel_launch garbage kx ky d_input cols rows batch_sz sobel_width d_output
    (b * cols * rows + row * cols + col) =
  sobel_launch (fun bi a => garbage bi (b * 256 + a)) kx ky
    (fun k => d_input (b * cols * rows + k)) cols rows 1 sobel_width d_output'
    (row * cols + col).
Proof.
  intros Hok Hcol Hrow Hb.
  pose proof (launch_ok_single cols rows batch_sz Hok) as Hok1.
  assert (H0 : 0 <= 0 < 1) by lia.
  replace (row * cols + col) with (0 * cols * rows + row * cols + col) by lia.
  rewrite <- (thread_of_outIndex cols rows batch_sz Hok col row b Hcol Hrow Hb).
  rewrite <- (thread_of_outIndex cols rows 1 Hok1 col row 0 Hcol Hrow H0).
  rewrite !sobel_launch_at_thread;
    try assumption; try (now apply thread_of_in_launch); try (now apply thread_of_valid).
  unfold pixel. f_equal. apply accumulate_reads. rewrite radius_sobel_width.
  intros i j Hi Hj.
  rewrite (thread_of_reads garbage d_input cols rows batch_sz Hok col row b
             Hcol Hrow Hb i j) by lia.
  rewrite (thread_of_reads _ _ cols rows 1 Hok1 col row 0 Hcol Hrow H0 i j) by lia.
  unfold neighborhood, tile_sample. cbn [dx dy dz].
  destruct ((col / 16 * 16 + clamp 0 15 (col mod 16 + j) <? cols)
            && (row / 16 * 16 + clamp 0 15 (row mod 16 + i) <? rows));
    f_equal; lia.
Qed.

Lemma batch_independent_witness :
  sobel_launch (fun _ _ => 0) h_sobel_x h_sobel_y
    (of_list [0; 0; 255; 0; 0; 255; 0; 0; 255; 10; 10; 10; 10; 100; 10; 10; 10; 10])
    3 3 2 sobel_width (fun _ => 0) (1 * 3 * 3 + 1 * 3 + 1) =
  sobel_launch (fun bi a => (fun _ _ => 0) bi (1 * 256 + a)) h_sobel_x h_sobel_y
    (fun k => of_list [0; 0; 255; 0; 0; 255; 0; 0; 255; 10; 10; 10; 10; 100; 10; 10; 10; 10]
                (1 * 3 * 3 + k))
    3 3 1 sobel_width (fun _ => 0) (1 * 3 + 1).
Proof.
  apply (batch_independent (fun _ _ => 0) h_sobel_x h_sobel_y
           (of_list [0; 0; 255; 0; 0; 255; 0; 0; 255; 10; 10; 10; 10; 100; 10; 10; 10; 10])
           (fun _ => 0) (fun _ => 0) 3 3 2 1 1 1); by_computation.
Defined.

(** ** Every sample is a byte, and full tiles are deterministic *)

(** X16. After the launch every sample of the batch in the output buffer
    lies between 0 and 255, whatever the input, the tables, the
    [kernel_width] and the previous content of the buffer. *)
Theorem output_samples_are_bytes (garbage : dim3 -> buffer) (kx ky : table)
    (d_input d_output : buffer) (cols rows batch_sz kernel_width k : Z) :
  launch_ok cols rows batch_sz -> 0 <= k < numElemts cols rows batch_sz ->
  0 <= sobel_launch garbage kx ky d_input cols rows batch_sz kernel_width d_output k
    < 256.
Proof.
  intros Hok Hk. unfold numElemts in Hk.
  pose proof Hok as (W0 & H0 & _).
  destruct (sample_coordinates cols rows batch_sz k W0 H0 Hk) as (Hcol & Hrow & Hb & E).
  set (col := k mod cols) in *. set (row := (k / cols) mod rows) in *.
  set (b := k / cols / rows) in *. clearbody col row b. subst k.
  rewrite <- (thread_of_outIndex cols rows batch_sz Hok _ _ _ Hcol Hrow Hb).
  rewrite sobel_launch_at_thread;
    [|exact Hok|now apply thread_of_in_launch|now apply thread_of_valid].
  unfold pixel, magnitude, to_uchar. apply Z.mod_pos_bound. lia.
Qed.

Lemma output_samples_are_bytes_witness :
  0 <= sobel_launch (fun _ _ => 0) h_sobel_x h_sobel_y step_edge 3 3 1 sobel_width
         (fun _ => 1000) 4 < 256.
Proof.
  apply (output_samples_are_bytes (fun _ _ => 0) h_sobel_x h_sobel_y step_edge
           (fun _ => 1000) 3 3 1 sobel_width 4); by_computation.
Defined.

Lemma sobel_launch_outside (garbage : dim3 -> buffer) (kx ky : table)
    (d_input d_output : buffer) (cols rows batch_sz kernel_width k : Z) :
  launch_ok cols rows batch_sz ->
  k < 0 \/ cols * rows * batch_sz <= k ->
  sobel_launch garbage kx ky d_input cols rows batch_sz kernel_width d_output k =
  d_output k.
Proof.
  intros Hok Hk. apply sobel_launch_elsewhere.
  intros t Ht V E.
  pose proof (launch_flat_bound _ _ _ Hok t Ht V) as F.
  rewrite (launch_outIndex _ _ _ Hok t Ht V) in E. lia.
Qed.

(** X17. When the number of columns and the number of rows are multiples of
    16, the whole output buffer after the launch is the same whatever the
    blocks found in their shared memory: every cell of the tile that is
    read was loaded. *)
Theorem full_tiles_deterministic (g1 g2 : dim3 -> buffer) (kx ky : table)
    (d_input d_output : buffer) (cols rows batch_sz k : Z) :
  launch_ok cols rows batch_sz -> cols mod 16 = 0 -> rows mod 16 = 0 ->
  sobel_launch g1 kx ky d_input cols rows batch_sz sobel_width d_output k =
  sobel_launch g2 kx ky d_input cols rows batch_sz sobel_width d_output k.
Proof.
  intros Hok Mc Mr.
  assert (C : 0 <= k < cols * rows * batch_sz \/
              (k < 0 \/ cols * rows * batch_sz <= k)) by lia.
  destruct C as [Hk | Hk].
  - pose proof Hok as (W0 & H0 & _).
    destruct (sample_coordinates cols rows batch_sz k W0 H0 Hk)
      as (Hcol & Hrow & Hb & E).
    set (col := k mod cols) in *. set (row := (k / cols) mod rows) in *.
    set (b := k / cols / rows) in *. clearbody col row b. subst k.
    apply (loaded_pixel_ignores_garbage d_input cols rows batch_sz Hok _ _ _
             Hcol Hrow Hb).
    now apply full_tiles_loaded.
  - now rewrite !sobel_launch_outside.
Qed.

Lemma full_tiles_deterministic_witness :
  sobel_launch (fun _ _ => 0) h_sobel_x h_sobel_y (fun k => k mod 7) 16 16 1
    sobel_width (fun _ => 0) 255 =
  sobel_launch (fun _ _ => 255) h_sobel_x h_sobel_y (fun k => k mod 7) 16 16 1
    sobel_width (fun _ => 0) 255.
Proof.
  apply (full_tiles_deterministic (fun _ _ => 0) (fun _ _ => 255) h_sobel_x h_sobel_y
           (fun k => k mod 7) (fun _ => 0) 16 16 1 255); by_computation.
Defined.

(** ** Brightness offset and photographic negative *)

(** X18. Where the neighbourhood of a pixel was loaded, the sample written
    for it is unchanged when a constant is added to every sample of the
    image, and when the image is replaced by its negative: the coefficients
    of each kernel sum to zero and the two sums enter through their absolute
    values. *)
Theorem offset_and_negative_invariant (garbage : dim3 -> buffer)
    (d_input d_input' d_output : buffer) (cols rows batch_sz col row b a c : Z) :
  launch_ok cols rows batch_sz ->
  uchar_buffer d_input -> uchar_buffer d_input' ->
  (forall bi, uchar_buffer (garbage bi)) ->
  0 <= col < cols -> 0 <= row < rows -> 0 <= b < batch_sz ->
  neighbourhood_loaded cols rows col row ->
  a = 1 \/ a = -1 ->
  (forall k, d_input' k = a * d_input k + c) ->
  sobel_launch garbage h_sobel_x h_sobel_y d_input' cols rows batch_sz sobel_width
    d_output (b * cols * rows + row * cols + col) =
  sobel_launch garbage h_sobel_x h_sobel_y d_input cols rows batch_sz sobel_width
    d_output (b * cols * rows + row * cols + col).
Proof.
  intros Hok Hd Hd' Hg Hcol Hrow Hb Hl Ha Hrel.
  destruct (sobel_launch_pixel garbage d_input d_output cols rows batch_sz col row b
              Hok Hd Hg Hcol Hrow Hb) as (Es & _ & _ & Ew).
  destruct (sobel_launch_pixel garbage d_input' d_output cols rows batch_sz col row b
              Hok Hd' Hg Hcol Hrow Hb) as (Es' & _ & _ & Ew').
  rewrite Ew, Ew', Es, Es'. cbn [fst snd].
  rewrite !convolve3_h_sobel_x, !convolve3_h_sobel_y.
  rewrite !(loaded_sample _ cols rows col row b Hcol Hrow Hl garbage) by lia.
  rewrite !Hrel.
  f_equal. destruct Ha as [-> | ->]; lia.
Qed.

Lemma offset_and_negative_invariant_witness :
  sobel_launch (fun _ _ => 0) h_sobel_x h_sobel_y (fun k => -1 * step_edge k + 255)
    3 3 1 sobel_width (fun _ => 0) (0 * 3 * 3 + 1 * 3 + 1) =
  sobel_launch (fun _ _ => 0) h_sobel_x h_sobel_y step_edge
    3 3 1 sobel_width (fun _ => 0) (0 * 3 * 3 + 1 * 3 + 1).
Proof.
  assert (U : uchar_buffer step_edge).
  { intros i. unfold step_edge, of_list.
    destruct (Z.to_nat i) as [|[|[|[|[|[|[|[|[|[|n]]]]]]]]]];
      unfold is_uchar; simpl; lia. }
  apply (offset_and_negative_invariant (fun _ _ => 0) step_edge
           (fun k => -1 * step_edge k + 255) (fun _ => 0) 3 3 1 1 1 0 (-1) 255).
  - by_computation.
  - exact U.
  - intros i. specialize (U i). unfold is_uchar in *. lia.
  - intros bi i. unfold is_uchar. lia.
  - lia.
  - lia.
  - lia.
  - split; left; by_computation.
  - right. reflexivity.
  - intros k. reflexivity.
Defined.
